(** * dexxt: the Finglish-to-Farsi Telegram bot handler (api/index.go)

    A shallow embedding of [api/index.go] and the properties its
    specification states about it.

    Go strings are sequences of bytes; they are modelled by [string], whose
    characters ([ascii]) are exactly the 256 byte values.  A string literal
    of the Go source that holds Farsi letters is the UTF-8 encoding of those
    letters, and so is the same literal here.  Go's [int] is the 64-bit
    two's-complement integer; it is modelled by [Z] with the wrap-around
    written out ([Go.int_add]).  A run of a Go function either returns or
    panics ([Go.run]). *)

From Stdlib Require Import ZArith NArith Ascii String.
From Stdlib Require Import DecimalString DecimalZ DecimalPos.
From stdpp Require Import gmap strings list fin_maps.

Local Open Scope Z_scope.

(** ** The parts of the Go language and runtime the handler relies on *)

Module Go.

(** How a call ends.  [OutOfFuel] belongs to the model only: loops are
    unrolled a bounded number of times, and [getFarsi_loop_returns] below
    shows that the bound given to the loop of [getFarsi] is never hit. *)
Inductive run (A : Type) : Type :=
| Returned (a : A)
| Panicked
| OutOfFuel.
Global Arguments Returned {A} a.
Global Arguments Panicked {A}.
Global Arguments OutOfFuel {A}.

Global Instance run_ret : MRet run := fun A a => Returned a.
Global Instance run_bind : MBind run := fun A B k m =>
  match m with
  | Returned a => k a
  | Panicked => Panicked
  | OutOfFuel => OutOfFuel
  end.

(** An access that may fail at run time: [None] is the runtime panic
    "index out of range". *)
Definition checked {A : Type} (o : option A) : run A :=
  match o with
  | Some a => Returned a
  | None => Panicked
  end.

(** [int]: 64 bits, two's complement, silent wrap-around. *)
Definition int_min : Z := - 2 ^ 63.
Definition int_max : Z := 2 ^ 63 - 1.
Definition int_wrap (z : Z) : Z := (z + 2 ^ 63) mod 2 ^ 64 - 2 ^ 63.
Definition int_add (a b : Z) : Z := int_wrap (a + b).

(** [len(s)] of a string: its number of bytes. *)
Definition len (s : string) : Z := Z.of_nat (String.length s).

(** [s[i]]: the byte at index [i], defined for [0 <= i < len(s)] only. *)
Definition index (s : string) (i : Z) : option ascii :=
  if i <? 0 then None else String.get (Z.to_nat i) s.

(** [string(b)] for a byte [b].  The conversion of an integer value to a
    string yields the UTF-8 encoding of the code point with that value:
    one byte below 0x80, and the two bytes
    [0xC0 | b >> 6], [0x80 | b & 0x3F] from 0x80 on. *)
Definition string_of_byte (b : ascii) : string :=
  let r := N_of_ascii b in
  if (r <? 128)%N then String b EmptyString
  else String (ascii_of_N (N.lor 192 (N.shiftr r 6)))
         (String (ascii_of_N (N.lor 128 (N.land r 63))) EmptyString).

(** A string a Go program can hold: its length fits an [int]. *)
Definition representable (s : string) : Prop := len s <= int_max.

End Go.

Import Go.

(** ** The transliterator: [getFarsi] and [peekChar] *)

(** [peekChar] returns the next char in the given string if exists. *)
Definition peekChar (index : Z) (str : string) : run string :=
  if int_add index 1 <? len str then
    b ← checked (Go.index str (int_add index 1));
    mret (string_of_byte b)
  else mret "".

(** The [switch] of the loop body of [getFarsi], at cursor [i] with the
    output built so far in [farsi]: the cursor and the output when the
    [switch] is left ([continue] included). *)
Definition getFarsi_switch (finglish : string) (i : Z) (farsi : string)
  : run (Z * string) :=
  b ← checked (Go.index finglish i);
  match b with
  | "a"%char => mret (i, farsi +:+ "ا")
  | "b"%char => mret (i, farsi +:+ "ب")
  | "c"%char =>
      p ← peekChar i finglish;
      if String.eqb p "h" then mret (int_add i 1, farsi +:+ "چ")
      else mret (i, farsi +:+ "س")
  | "d"%char => mret (i, farsi +:+ "د")
  | "e"%char => mret (i, farsi)
  | "f"%char => mret (i, farsi +:+ "ف")
  | "g"%char =>
      p ← peekChar i finglish;
      if String.eqb p "h" then mret (int_add i 1, farsi +:+ "غ")
      else mret (i, farsi +:+ "گ")
  | "h"%char => mret (i, farsi +:+ "ه")
  | "i"%char => mret (i, farsi +:+ "ی")
  | "j"%char => mret (i, farsi +:+ "ج")
  | "k"%char =>
      p ← peekChar i finglish;
      if String.eqb p "h" then mret (int_add i 1, farsi +:+ "خ")
      else mret (i, farsi +:+ "ک")
  | "l"%char => mret (i, farsi +:+ "ل")
  | "m"%char => mret (i, farsi +:+ "م")
  | "n"%char => mret (i, farsi +:+ "ن")
  | "o"%char => mret (i, farsi +:+ "و")
  | "p"%char => mret (i, farsi +:+ "پ")
  | "q"%char => mret (i, farsi +:+ "ک")
  | "r"%char => mret (i, farsi +:+ "ر")
  | "s"%char =>
      p ← peekChar i finglish;
      if String.eqb p "h" then mret (int_add i 1, farsi +:+ "ش")
      else mret (i, farsi +:+ "س")
  | "t"%char => mret (i, farsi +:+ "ت")
  | "u"%char => mret (i, farsi +:+ "و")
  | "v"%char => mret (i, farsi +:+ "و")
  | "w"%char => mret (i, farsi +:+ "و")
  | "x"%char => mret (i, farsi +:+ "خ")
  | "y"%char => mret (i, farsi +:+ "ی")
  | "z"%char => mret (i, farsi +:+ "ز")
  | _ => mret (i, farsi +:+ string_of_byte b)
  end.

(** One turn of [for i := 0; i < len(finglish); i++]: the [switch], then the
    post statement [i++]. *)
Definition getFarsi_iteration (finglish : string) (i : Z) (farsi : string)
  : run (Z * string) :=
  '(i', farsi') ← getFarsi_switch finglish i farsi;
  mret (int_add i' 1, farsi').

Fixpoint getFarsi_loop (fuel : nat) (finglish : string) (i : Z) (farsi : string)
  : run string :=
  if i <? len finglish then
    match fuel with
    | O => OutOfFuel
    | S fuel' =>
        '(i', farsi') ← getFarsi_iteration finglish i farsi;
        getFarsi_loop fuel' finglish i' farsi'
    end
  else mret farsi.

(** [getFarsi] constructs and returns appropriate Farsi string associated
    with the given Finglish. *)
Definition getFarsi (finglish : string) : run string :=
  getFarsi_loop (String.length finglish) finglish 0 "".

(** The bytes with an entry in the table: the lowercase letters. *)
Definition in_table (b : ascii) : bool :=
  ((97 <=? N_of_ascii b) && (N_of_ascii b <=? 122))%N.

(** ** The loop of [getFarsi] as a recursion on the rest of the input

    [scan rest] is what the loop appends from a cursor on, [rest] being the
    bytes from the cursor to the end: the cases of the [switch], with the
    lookahead read on [rest].  [getFarsi_scan] below proves that
    [getFarsi] returns [scan] of its argument. *)
Fixpoint scan (rest : string) : string :=
  match rest with
  | EmptyString => ""
  | String b rest' =>
      match b with
      | "a"%char => "ا" +:+ scan rest'
      | "b"%char => "ب" +:+ scan rest'
      | "c"%char =>
          match rest' with
          | String "h"%char rest'' => "چ" +:+ scan rest''
          | _ => "س" +:+ scan rest'
          end
      | "d"%char => "د" +:+ scan rest'
      | "e"%char => scan rest'
      | "f"%char => "ف" +:+ scan rest'
      | "g"%char =>
          match rest' with
          | String "h"%char rest'' => "غ" +:+ scan rest''
          | _ => "گ" +:+ scan rest'
          end
      | "h"%char => "ه" +:+ scan rest'
      | "i"%char => "ی" +:+ scan rest'
      | "j"%char => "ج" +:+ scan rest'
      | "k"%char =>
          match rest' with
          | String "h"%char rest'' => "خ" +:+ scan rest''
          | _ => "ک" +:+ scan rest'
          end
      | "l"%char => "ل" +:+ scan rest'
      | "m"%char => "م" +:+ scan rest'
      | "n"%char => "ن" +:+ scan rest'
      | "o"%char => "و" +:+ scan rest'
      | "p"%char => "پ" +:+ scan rest'
      | "q"%char => "ک" +:+ scan rest'
      | "r"%char => "ر" +:+ scan rest'
      | "s"%char =>
          match rest' with
          | String "h"%char rest'' => "ش" +:+ scan rest''
          | _ => "س" +:+ scan rest'
          end
      | "t"%char => "ت" +:+ scan rest'
      | "u"%char => "و" +:+ scan rest'
      | "v"%char => "و" +:+ scan rest'
      | "w"%char => "و" +:+ scan rest'
      | "x"%char => "خ" +:+ scan rest'
      | "y"%char => "ی" +:+ scan rest'
      | "z"%char => "ز" +:+ scan rest'
      | _ => string_of_byte b +:+ scan rest'
      end
  end.

(** Every byte of a string passes a test. *)
Fixpoint all_bytes (test : ascii -> bool) (s : string) : bool :=
  match s with
  | EmptyString => true
  | String b rest => test b && all_bytes test rest
  end.

Definition is_ascii (b : ascii) : bool := (N_of_ascii b <? 128)%N.
Definition not_in_table (b : ascii) : bool := negb (in_table b).

(** The conversion [string(b)] applied to every byte of a string. *)
Fixpoint reencode (s : string) : string :=
  match s with
  | EmptyString => ""
  | String b rest => string_of_byte b +:+ reencode rest
  end.

(** Bytes written out, for outputs that are no readable text. *)
Definition bytes (l : list N) : string :=
  string_of_list_ascii (map ascii_of_N l).

(** ** Telegram objects *)

(** [audio] refer to a audio file sent. *)
Record audio : Type := {
  audio_FileId : string;
  audio_Duration : Z
}.

(** [voice] can be summarized with similar attribute as an Audio message. *)
Definition voice : Type := audio.

(** [document] refer to a file sent. *)
Record document : Type := {
  document_FileId : string;
  document_FileName : string
}.

(** [chat] indicates the conversation to which the Message belongs. *)
Record chat : Type := {
  ID : Z
}.

(** [message] is a Telegram object that can be found in an update. *)
Record message : Type := {
  Text : string;
  Chat : chat;
  Audio : audio;
  Voice : voice;
  Document : document
}.

(** [update] is a Telegram object that we receive every time a user
    interacts with the bot. *)
Record update : Type := {
  UpdateId : Z;
  Message : message
}.

(** ** Errors, effects and the world outside the handler *)

(** A Go [error] value; the handler only ever reads its message. *)
Record error : Type := errors_New { Error : string }.

(** [fmt.Errorf(prefix + "%w", err)]. *)
Definition fmt_Errorf_w (prefix : string) (err : error) : error :=
  errors_New (prefix +:+ Error err).

(** An argument of a log line. *)
Inductive arg : Type :=
| ArgS (s : string)
| ArgD (n : Z).

(** What a run of the handler does to the outside, in order.  A log line is
    kept as its format and arguments.  [http_Do] is the request
    [getFarsiAPI] sends (its headers are constants and left out);
    [http_PostForm] is the form posted to the messaging platform. *)
Inductive event : Type :=
| log_Printf (format : string) (args : list arg)
| http_Do (method url body : string)
| http_PostForm (url chat_id text : string).

(** What the libraries and the network answer during one run.
    - [json_Decode_update]: [json.NewDecoder(r.Body).Decode(&update)] on the
      body of the request;
    - [client_Do]: [http.DefaultClient.Do] on the request carrying the given
      body, then [io.ReadAll] on the response: an error of the transport, or
      a response whose body reads as an error or as bytes;
    - [json_object]: how [encoding/json] reads a body asked to fill a
      [map[string]string]: an error, or the members of the object in the
      order they appear;
    - [range_order]: the order in which this run's [range] enumerates a
      map.  The language leaves it unspecified (see [World_ok]);
    - [post_form]: [http.PostForm] with url, chat_id and text, then
      [io.ReadAll] on the response. *)
Record World : Type := {
  os_Getenv : string -> string;
  strings_ToLower : string -> string;
  json_Decode_update : string -> error + update;
  client_Do : string -> error + (error + string);
  json_object : string -> error + list (string * string);
  range_order : gmap string string -> list (string * string);
  post_form : string -> string -> string -> error + (error + string)
}.

(** A [range] over a map visits every entry once, in some order: "the
    iteration order over maps is not specified and is not guaranteed to be
    the same from one iteration to the next". *)
Definition World_ok (w : World) : Prop :=
  forall m : gmap string string, range_order w m ≡ₚ map_to_list m.

(** Filling a map from the members of a JSON object: one assignment
    [m[key] = value] per member, in order, a repeated key overwriting. *)
Definition map_of_members (members : list (string * string))
  : gmap string string :=
  foldl (fun m kv => <[kv.1 := kv.2]> m) ∅ members.

(** [json.Unmarshal(data, &result)] for [result map[string]string]. *)
Definition json_Unmarshal (w : World) (data : string)
  : error + gmap string string :=
  match json_object w data with
  | inl err => inl err
  | inr members => inr (map_of_members members)
  end.

(** [strconv.Itoa]. *)
Definition strconv_Itoa (n : Z) : string :=
  NilZero.string_of_int (Z.to_int n).

(** ** The handler *)

Definition TELEGRAM_API_BASE_URL : string := "https://api.telegram.org/bot".
Definition TELEGRAM_API_SEND_MESSAGE : string := "/sendMessage".
Definition BOT_TOKEN_ENV : string := "TELEGRAM_BOT_TOKEN".

Definition telegramAPI (w : World) : string :=
  TELEGRAM_API_BASE_URL +:+ os_Getenv w BOT_TOKEN_ENV
  +:+ TELEGRAM_API_SEND_MESSAGE.

(** [parseIncomingRequest] parses incoming update to Update. *)
Definition parseIncomingRequest (w : World) (body : string)
  : list event * (error + update) :=
  match json_Decode_update w body with
  | inl err =>
      ([log_Printf "could not decode incoming update %s" [ArgS (Error err)]],
       inl err)
  | inr update =>
      if UpdateId update =? 0 then
        ([log_Printf "invalid update id, got update id = 0" []],
         inl (errors_New
           "invalid update id of 0 indicates failure to parse incoming update"))
      else ([], inr update)
  end.

(** The loop [for _, v := range result { farsi += v }], over the entries in
    the order the run enumerates them. *)
Definition range_concat (order : list (string * string)) : string :=
  foldl (fun farsi kv => farsi +:+ kv.2) "" order.

(** The last part of [getFarsiAPI]: from the body of the response to the
    results [(farsi, err)]. *)
Definition getFarsiAPI_result (w : World) (resp_body : string)
  : string * option error :=
  match json_Unmarshal w resp_body with
  | inl err =>
      ("", Some (fmt_Errorf_w "err unMarshaling response body: " err))
  | inr result => (range_concat (range_order w result), None)
  end.

Definition converter_url : string :=
  "https://9mkhzfaym3.execute-api.us-east-1.amazonaws.com/production/convert?".

(** [getFarsiAPI].  [http.NewRequest] is given a constant method and a
    constant URL, both valid, and does not fail. *)
Definition getFarsiAPI (w : World) (finglish : string)
  : list event * (string * option error) :=
  let sent := [http_Do "POST" converter_url finglish] in
  match client_Do w finglish with
  | inl err => (sent, ("", Some (fmt_Errorf_w "err sending request: " err)))
  | inr (inl err) =>
      (sent, ("", Some (fmt_Errorf_w "err reading response body: " err)))
  | inr (inr resp_body) => (sent, getFarsiAPI_result w resp_body)
  end.

(** [sendToClient] sends a text message to the Telegram chat identified by
    the chat ID. *)
Definition sendToClient (w : World) (chatID : Z) (incomingText : string)
  : list event * (string * option error) :=
  if String.eqb incomingText "/start" then ([], ("", None))
  else
    match getFarsiAPI w incomingText with
    | (called, (_, Some err)) => (called, ("", Some err))
    | (called, (text, None)) =>
        let posted :=
          called
          ++ [log_Printf "Sending %s to chat_id: %d" [ArgS text; ArgD chatID];
              http_PostForm (telegramAPI w) (strconv_Itoa chatID) text] in
        match post_form w (telegramAPI w) (strconv_Itoa chatID) text with
        | inl err =>
            (posted
             ++ [log_Printf "error when posting text to the chat: %s"
                            [ArgS (Error err)]],
             ("", Some err))
        | inr (inl err) =>
            (posted
             ++ [log_Printf "error in parsing telegram answer %s"
                            [ArgS (Error err)]],
             ("", Some err))
        | inr (inr body) =>
            (posted
             ++ [log_Printf "Body of Telegram Response: %s" [ArgS body]],
             (body, None))
        end
    end.

(** [Handler] sends a message back to the chat.  The request is its body;
    nothing is written to the response. *)
Definition Handler (w : World) (body : string) : list event :=
  match parseIncomingRequest w body with
  | (parsed, inl err) =>
      parsed
      ++ [log_Printf "error parsing incoming update, %s" [ArgS (Error err)]]
  | (parsed, inr update) =>
      match sendToClient w (ID (Chat (Message update)))
                         (strings_ToLower w (Text (Message update))) with
      | (sent, (telegramResponseBody, Some err)) =>
          parsed ++ sent
          ++ [log_Printf "got error %s from telegram, response body is %s"
                         [ArgS (Error err); ArgS telegramResponseBody]]
      | (sent, (_, None)) =>
          parsed ++ sent
          ++ [log_Printf "successfully distributed to chat id %d"
                         [ArgD (ID (Chat (Message update)))]]
      end
  end.

(** The bodies of the requests a run sends to the transliteration service,
    and the forms it posts to the messaging platform. *)
Fixpoint converter_requests (trace : list event) : list string :=
  match trace with
  | [] => []
  | http_Do _ _ body :: rest => body :: converter_requests rest
  | _ :: rest => converter_requests rest
  end.

Fixpoint posted_forms (trace : list event) : list (string * string) :=
  match trace with
  | [] => []
  | http_PostForm _ chat_id text :: rest =>
      (chat_id, text) :: posted_forms rest
  | _ :: rest => posted_forms rest
  end.

(** ** A world to run the handler in

    A stand-in for the libraries and the network, used to run the handler
    on concrete requests: the decoder knows three payloads by name, the
    transliteration service answers an object of two members, the platform
    answers "ok".  [ascii_ToLower] is [strings.ToLower] on strings of ASCII
    bytes: each of ['A'..'Z'] moved by ['a' - 'A']. *)

Definition ascii_lower (b : ascii) : ascii :=
  let n := N_of_ascii b in
  if ((65 <=? n) && (n <=? 90))%N then ascii_of_N (n + 32) else b.

Fixpoint ascii_ToLower (s : string) : string :=
  match s with
  | EmptyString => EmptyString
  | String b rest => String (ascii_lower b) (ascii_ToLower rest)
  end.

Definition sample_message (text : string) : message :=
  {| Text := text;
     Chat := {| ID := 42 |};
     Audio := {| audio_FileId := ""; audio_Duration := 0 |};
     Voice := {| audio_FileId := ""; audio_Duration := 0 |};
     Document := {| document_FileId := ""; document_FileName := "" |} |}.

Definition sample_decode (body : string) : error + update :=
  if String.eqb body "payload:zero-id" then
    inr {| UpdateId := 0; Message := sample_message "salam" |}
  else if String.eqb body "payload:start" then
    inr {| UpdateId := 7; Message := sample_message "/Start" |}
  else if String.eqb body "payload:mixed-case" then
    inr {| UpdateId := 8; Message := sample_message "SaLam" |}
  else if String.eqb body "payload:lower-case" then
    inr {| UpdateId := 8; Message := sample_message "salam" |}
  else inl (errors_New "unexpected end of JSON input").

Definition sample_world (order : gmap string string -> list (string * string))
  : World :=
  {| os_Getenv := fun _ => "token";
     strings_ToLower := ascii_ToLower;
     json_Decode_update := sample_decode;
     client_Do := fun _ => inr (inr "response");
     json_object := fun _ => inr [("a", "x"); ("b", "y")];
     range_order := order;
     post_form := fun _ _ _ => inr (inr "ok") |}.

(** Two orders a run may enumerate a map in. *)
Definition order_forward (m : gmap string string) : list (string * string) :=
  map_to_list m.
Definition order_backward (m : gmap string string) : list (string * string) :=
  reverse (map_to_list m).

(** ** Vocabulary of the further properties *)

(** The letters that open a digraph. *)
Definition digraph_letter (b : ascii) : bool :=
  match b with
  | "c"%char | "g"%char | "k"%char | "s"%char => true
  | _ => false
  end.

(** The rest does not start with ['h']. *)
Definition no_h_first (suf : string) : Prop :=
  forall suf', suf <> String "h"%char suf'.

(** Well-formed UTF-8 made of sequences of one and two bytes: a byte of
    ASCII, or a lead byte C2..DF followed by a continuation byte 80..BF. *)
Definition utf8_lead2 (b : ascii) : bool :=
  ((194 <=? N_of_ascii b) && (N_of_ascii b <=? 223))%N.
Definition utf8_continuation (b : ascii) : bool :=
  ((128 <=? N_of_ascii b) && (N_of_ascii b <=? 191))%N.

Fixpoint utf8_short (s : string) : bool :=
  match s with
  | EmptyString => true
  | String b rest =>
      if is_ascii b then utf8_short rest
      else
        match rest with
        | EmptyString => false
        | String c rest' =>
            utf8_lead2 b && utf8_continuation c && utf8_short rest'
        end
  end.

(** A world like [sample_world] with the answers of the transliteration
    service, of the JSON reader and of the messaging platform left open. *)
Definition world_with
    (answer : string -> error + (error + string))
    (object : string -> error + list (string * string))
    (post : string -> string -> string -> error + (error + string))
  : World :=
  {| os_Getenv := fun _ => "token";
     strings_ToLower := ascii_ToLower;
     json_Decode_update := sample_decode;
     client_Do := answer;
     json_object := object;
     range_order := order_forward;
     post_form := post |}.

(** The bytes of the values of a list of entries, counted. *)
Definition values_length (entries : list (string * string)) : nat :=
  foldr (fun kv n => (String.length kv.2 + n)%nat) 0%nat entries.

(** ** The printers of the Telegram objects

    [fmt.Sprintf] with the verbs of these formats: [%d] prints an [int] in
    decimal, [%s] prints a string as it is, and a value that has a [String]
    method through that method. *)

(** [String] implements the fmt.String interface to get the representation
    of a Chat as a string. *)
Definition chat_String (c : chat) : string :=
  "(id: " +:+ strconv_Itoa (ID c) +:+ ")".

(** [String] implements the fmt.String interface to get the representation
    of an Audio as a string. *)
Definition audio_String (a : audio) : string :=
  "(file id: " +:+ audio_FileId a +:+ ", duration: "
  +:+ strconv_Itoa (audio_Duration a) +:+ ")".

(** [String] implements the fmt.String interface to get the representation
    of an Document as a string. *)
Definition document_String (d : document) : string :=
  "(file id: " +:+ document_FileId d +:+ ", file name: "
  +:+ document_FileName d +:+ ")".

(** [String] implements the fmt.String interface to get the representation
    of a Message as a string. *)
Definition message_String (m : message) : string :=
  "(text: " +:+ Text m +:+ ", chat: " +:+ chat_String (Chat m)
  +:+ ", audio " +:+ audio_String (Audio m) +:+ ")".

(** [String] implements the fmt.String interface to get the representation
    of an Update as a string. *)
Definition update_String (u : update) : string :=
  "(update id: " +:+ strconv_Itoa (UpdateId u) +:+ ", message: "
  +:+ message_String (Message u) +:+ ")".

(** No byte of a string is a comma. *)
Definition no_comma (s : string) : bool :=
  all_bytes (fun b => negb (Ascii.eqb b ","%char)) s.

(** * Proofs *)

Ltac each_byte b :=
  destruct b as [[|] [|] [|] [|] [|] [|] [|] [|]].

Ltac run_step := cbn [checked mbind mret run_bind run_ret].

(** ** Facts about the runtime layer *)

Lemma int_add_1 (i : Z) : int_min <= i < int_max -> int_add i 1 = i + 1.
Proof.
  unfold int_add, int_wrap, int_min, int_max. intros Hi.
  rewrite Z.mod_small; lia.
Qed.

Lemma get_Some_lt (s : string) (n : nat) (b : ascii) :
  String.get n s = Some b -> (n < String.length s)%nat.
Proof.
  revert n. induction s as [|c s IH]; intros [|n] H; simpl in *;
    try discriminate; try lia.
  apply IH in H. lia.
Qed.

Lemma get_lt_Some (s : string) (n : nat) :
  (n < String.length s)%nat -> exists b, String.get n s = Some b.
Proof.
  revert n. induction s as [|c s IH]; intros [|n] H; simpl in *;
    try lia; eauto.
  apply IH. lia.
Qed.

Lemma index_Some_range (s : string) (i : Z) (b : ascii) :
  Go.index s i = Some b -> 0 <= i < len s.
Proof.
  unfold Go.index, len. destruct (Z.ltb_spec i 0) as [Hneg|Hpos];
    [discriminate|].
  intros Hget%get_Some_lt. lia.
Qed.

Lemma index_range_Some (s : string) (i : Z) :
  0 <= i < len s -> exists b, Go.index s i = Some b.
Proof.
  unfold Go.index, len. intros Hi.
  destruct (Z.ltb_spec i 0) as [Hneg|Hpos]; [lia|]. apply get_lt_Some. lia.
Qed.

Lemma representable_cursor (s : string) (i : Z) :
  representable s -> 0 <= i < len s -> int_min <= i < int_max.
Proof. unfold representable, int_min, int_max. lia. Qed.

Lemma append_empty_r (s : string) : s +:+ "" = s.
Proof.
  induction s as [|c s IH]; [reflexivity|].
  change (String c (s +:+ "") = String c s). now rewrite IH.
Qed.

Lemma append_assoc (a b c : string) : (a +:+ b) +:+ c = a +:+ (b +:+ c).
Proof.
  induction a as [|x a IH]; [reflexivity|].
  change (String x ((a +:+ b) +:+ c) = String x (a +:+ (b +:+ c))).
  now rewrite IH.
Qed.

Lemma string_of_byte_ascii (b : ascii) :
  (N_of_ascii b < 128)%N -> string_of_byte b = String b "".
Proof.
  unfold string_of_byte. intros H.
  destruct (N.ltb_spec (N_of_ascii b) 128); [reflexivity|lia].
Qed.

Lemma string_of_byte_eq_h (b : ascii) :
  String.eqb (string_of_byte b) "h" = true <-> b = "h"%char.
Proof.
  rewrite String.eqb_eq. split; [|intros ->; reflexivity].
  unfold string_of_byte. destruct (N.ltb_spec (N_of_ascii b) 128).
  - congruence.
  - discriminate.
Qed.

(** ** [peekChar] *)

(** The lookahead in terms of the string: the next byte when there is one,
    the empty string otherwise.  It holds for every index the addition
    [index+1] does not overflow at; the cursor of [getFarsi] is such an
    index. *)
Lemma peekChar_spec (index : Z) (str : string) :
  -1 <= index < int_max ->
  (index + 1 < len str ->
     exists b, Go.index str (index + 1) = Some b
               /\ peekChar index str = Returned (string_of_byte b))
  /\ (len str <= index + 1 -> peekChar index str = Returned "").
Proof.
  intros Hi. unfold peekChar.
  rewrite int_add_1 by (unfold int_min, int_max in *; lia).
  split; intros H.
  - destruct (index_range_Some str (index + 1)) as [b Hb]; [lia|].
    exists b. split; [exact Hb|].
    destruct (Z.ltb_spec (index + 1) (len str)); [|lia].
    rewrite Hb. reflexivity.
  - destruct (Z.ltb_spec (index + 1) (len str)); [lia|reflexivity].
Qed.

(** The test [peekChar(i, finglish) == "h"] of the four digraph cases. *)
Lemma peekChar_is_h (i : Z) (str : string) :
  -1 <= i < int_max ->
  exists p, peekChar i str = Returned p
            /\ (String.eqb p "h" = true <-> Go.index str (i + 1) = Some "h"%char).
Proof.
  intros Hi. destruct (peekChar_spec i str Hi) as [Hin Hout].
  destruct (Z.lt_ge_cases (i + 1) (len str)) as [Hlt|Hge].
  - destruct (Hin Hlt) as (b & Hb & Hp). exists (string_of_byte b).
    split; [exact Hp|]. rewrite string_of_byte_eq_h, Hb.
    split; congruence.
  - exists "". split; [auto|]. split; [discriminate|].
    intros H%index_Some_range. lia.
Qed.

(** ** One turn of the loop of [getFarsi] *)

Lemma getFarsi_switch_returns (finglish : string) (i : Z) (farsi : string) :
  representable finglish -> 0 <= i < len finglish ->
  exists i' farsi',
    getFarsi_switch finglish i farsi = Returned (i', farsi')
    /\ (i' = i \/ (i' = i + 1 /\ i + 1 < len finglish)).
Proof.
  intros Hr Hi.
  destruct (index_range_Some finglish i Hi) as [b Hb].
  pose proof (representable_cursor finglish i Hr Hi) as Hc.
  destruct (peekChar_is_h i finglish) as (p & Hp & Hh); [lia|].
  assert (Hnext : String.eqb p "h" = true -> i + 1 < len finglish).
  { intros H. apply Hh in H. apply index_Some_range in H. lia. }
  unfold getFarsi_switch. rewrite Hb, Hp, (int_add_1 i Hc). run_step.
  each_byte b; run_step;
    try (eexists _, _; split; [reflexivity|now left]);
    destruct (String.eqb p "h");
    eexists _, _; (split; [reflexivity|]); auto.
Qed.

Lemma getFarsi_iteration_returns (finglish : string) (i : Z) (farsi : string) :
  representable finglish -> 0 <= i < len finglish ->
  exists i' farsi',
    getFarsi_iteration finglish i farsi = Returned (i', farsi')
    /\ i < i' <= len finglish.
Proof.
  intros Hr Hi.
  destruct (getFarsi_switch_returns finglish i farsi Hr Hi)
    as (i' & farsi' & Hsw & Hi').
  unfold getFarsi_iteration. rewrite Hsw. run_step.
  assert (Hc : int_min <= i' < int_max).
  { unfold representable, int_min, int_max in *. lia. }
  rewrite (int_add_1 i' Hc). eexists _, _. split; [reflexivity|lia].
Qed.

(** The loop returns: as many turns as the string has bytes are enough. *)
Lemma getFarsi_loop_returns (finglish : string) :
  representable finglish ->
  forall (fuel : nat) (i : Z) (farsi : string),
    0 <= i -> len finglish - i <= Z.of_nat fuel ->
    exists out, getFarsi_loop fuel finglish i farsi = Returned out.
Proof.
  intros Hr. induction fuel as [|fuel IH]; intros i farsi Hi Hfuel.
  - cbn [getFarsi_loop]. destruct (Z.ltb_spec i (len finglish)); [lia|].
    now exists farsi.
  - cbn [getFarsi_loop]. destruct (Z.ltb_spec i (len finglish)) as [Hlt|Hge].
    + destruct (getFarsi_iteration_returns finglish i farsi Hr)
        as (i' & farsi' & Hit & Hi'); [lia|].
      rewrite Hit. run_step. apply IH; lia.
    + now exists farsi.
Qed.

(** More turns than needed change nothing. *)
Lemma getFarsi_fuel_enough (finglish : string) (fuel : nat) :
  forall (extra : nat) (i : Z) (farsi out : string),
    getFarsi_loop fuel finglish i farsi = Returned out ->
    getFarsi_loop (fuel + extra) finglish i farsi = Returned out.
Proof.
  induction fuel as [|fuel IH]; intros extra i farsi out.
  - cbn [getFarsi_loop]. destruct (Z.ltb_spec i (len finglish)) as [Hlt|Hge];
      [discriminate|].
    intros H. destruct extra; cbn [getFarsi_loop Nat.add];
      destruct (Z.ltb_spec i (len finglish)); try lia; exact H.
  - cbn [getFarsi_loop Nat.add].
    destruct (Z.ltb_spec i (len finglish)) as [Hlt|Hge]; [|auto].
    destruct (getFarsi_iteration finglish i farsi) as [[i' farsi']| |];
      run_step; try discriminate.
    apply IH.
Qed.

(** The default case of the [switch]: a byte that is no lowercase letter is
    appended after the conversion [string(finglish[i])]. *)
Lemma getFarsi_switch_default (finglish : string) (i : Z) (farsi : string)
      (b : ascii) :
  Go.index finglish i = Some b -> in_table b = false ->
  getFarsi_switch finglish i farsi = Returned (i, farsi +:+ string_of_byte b).
Proof.
  intros Hb Ht. unfold getFarsi_switch. rewrite Hb. run_step.
  each_byte b; try reflexivity; vm_compute in Ht; discriminate Ht.
Qed.

(** For the bytes of ASCII that conversion is the byte itself. *)
Lemma getFarsi_iteration_ascii_default (finglish : string) (i : Z)
      (farsi : string) (b : ascii) :
  representable finglish ->
  Go.index finglish i = Some b -> in_table b = false ->
  (N_of_ascii b < 128)%N ->
  getFarsi_iteration finglish i farsi = Returned (i + 1, farsi +:+ String b "").
Proof.
  intros Hr Hb Ht Hlow. unfold getFarsi_iteration.
  rewrite (getFarsi_switch_default finglish i farsi b Hb Ht). run_step.
  rewrite int_add_1
    by (apply (representable_cursor finglish); eauto using index_Some_range).
  now rewrite string_of_byte_ascii.
Qed.

(** The lookahead test of the cases ['c'], ['g'], ['k'] and ['s'], read on
    the input: it succeeds exactly when the next byte exists and is ['h']. *)
Lemma peekChar_branch {A : Type} (finglish : string) (i : Z) (x y : run A) :
  -1 <= i < int_max ->
  (p ← peekChar i finglish; if String.eqb p "h" then x else y)
  = if decide (Go.index finglish (i + 1) = Some "h"%char) then x else y.
Proof.
  intros Hi. destruct (peekChar_is_h i finglish Hi) as (p & Hp & Hh).
  rewrite Hp. run_step. destruct (String.eqb p "h") eqn:E.
  - rewrite decide_True; [reflexivity|]. now apply Hh.
  - rewrite decide_False; [reflexivity|]. intros H. apply Hh in H. congruence.
Qed.

(** ** The transliterator: digraphs, silent [e], table look-ups *)

(** C1.  At a cursor holding ['c'], ['g'], ['k'] or ['s'], one turn of the
    loop appends the digraph letter and moves the cursor by two when the
    next byte exists and is ['h']; otherwise, also when the letter is the
    last byte, it appends the letter's own mapping and moves the cursor by
    one.  So "sh", "gh", "kh", "ch" give one letter each and "s" gives its
    single-letter mapping. *)
Theorem getFarsi_digraph_rule :
  (forall (finglish : string) (i : Z) (farsi : string)
          (c : ascii) (digraph single : string),
      representable finglish ->
      Go.index finglish i = Some c ->
      In (c, digraph, single)
         [("c"%char, "چ", "س"); ("g"%char, "غ", "گ");
          ("k"%char, "خ", "ک"); ("s"%char, "ش", "س")] ->
      (Go.index finglish (i + 1) = Some "h"%char ->
         getFarsi_iteration finglish i farsi
         = Returned (i + 2, farsi +:+ digraph))
      /\ (Go.index finglish (i + 1) <> Some "h"%char ->
         getFarsi_iteration finglish i farsi
         = Returned (i + 1, farsi +:+ single)))
  /\ getFarsi "sh" = Returned "ش"
  /\ getFarsi "gh" = Returned "غ"
  /\ getFarsi "kh" = Returned "خ"
  /\ getFarsi "ch" = Returned "چ"
  /\ getFarsi "s" = Returned "س".
Proof.
  split; [|repeat split; vm_compute; reflexivity].
  intros finglish i farsi c digraph single Hr Hc Hin.
  pose proof (index_Some_range _ _ _ Hc) as Hi.
  pose proof (representable_cursor finglish i Hr Hi) as Hci.
  assert (Hpeek : -1 <= i < int_max) by lia.
  unfold getFarsi_iteration, getFarsi_switch. rewrite Hc. run_step.
  cbn [In] in Hin.
  destruct Hin as [E|[E|[E|[E|[]]]]]; injection E as <- <- <-;
    rewrite (peekChar_branch finglish i _ _ Hpeek);
    (split; intros Hh;
     [ rewrite decide_True by exact Hh; run_step;
       assert (Hn : i + 1 < len finglish)
         by (apply index_Some_range in Hh; lia);
       rewrite (int_add_1 i Hci);
       rewrite int_add_1
         by (unfold representable, int_min, int_max in *; lia);
       f_equal; f_equal; lia
     | rewrite decide_False by exact Hh; run_step;
       rewrite (int_add_1 i Hci); reflexivity ]).
Qed.

Lemma getFarsi_digraph_rule_witness :
  representable "ash"
  /\ Go.index "ash" 1 = Some "s"%char
  /\ getFarsi_iteration "ash" 1 "ا" = Returned (3, "ا" +:+ "ش").
Proof.
  assert (Hr : representable "ash") by (vm_compute; discriminate).
  assert (Hc : Go.index "ash" 1 = Some "s"%char) by reflexivity.
  split; [exact Hr|]. split; [exact Hc|].
  apply (proj1 (proj1 getFarsi_digraph_rule "ash" 1 "ا" "s"%char "ش" "س"
                  Hr Hc ltac:(cbn [In]; auto 6))).
  reflexivity.
Defined.

(** C4.  At a cursor holding ['e'] one turn of the loop appends nothing and
    moves the cursor by one; "e" gives the empty string, and so does the
    empty input. *)
Theorem getFarsi_silent_e :
  (forall (finglish : string) (i : Z) (farsi : string),
      representable finglish ->
      Go.index finglish i = Some "e"%char ->
      getFarsi_iteration finglish i farsi = Returned (i + 1, farsi))
  /\ getFarsi "e" = Returned ""
  /\ getFarsi "" = Returned "".
Proof.
  split; [|split; vm_compute; reflexivity].
  intros finglish i farsi Hr Hc.
  pose proof (index_Some_range _ _ _ Hc) as Hi.
  unfold getFarsi_iteration, getFarsi_switch. rewrite Hc. run_step.
  now rewrite (int_add_1 i (representable_cursor finglish i Hr Hi)).
Qed.

Lemma getFarsi_silent_e_witness :
  representable "be"
  /\ Go.index "be" 1 = Some "e"%char
  /\ getFarsi_iteration "be" 1 "ب" = Returned (2, "ب").
Proof.
  assert (Hr : representable "be") by (vm_compute; discriminate).
  assert (Hc : Go.index "be" 1 = Some "e"%char) by reflexivity.
  split; [exact Hr|]. split; [exact Hc|].
  exact (proj1 getFarsi_silent_e "be" 1 "ب" Hr Hc).
Defined.

(** C5.  "salam" gives the five letters sin, alef, lam, alef, mim: the
    cursor visits every position once, and at position 0 the next byte is
    ['a'], so the digraph rule does not apply. *)
Theorem getFarsi_salam :
  getFarsi "salam" = Returned "سالام"
  /\ Go.index "salam" 1 = Some "a"%char
  /\ getFarsi_iteration "salam" 0 "" = Returned (1, "س")
  /\ getFarsi_iteration "salam" 1 "س" = Returned (2, "سا")
  /\ getFarsi_iteration "salam" 2 "سا" = Returned (3, "سال")
  /\ getFarsi_iteration "salam" 3 "سال" = Returned (4, "سالا")
  /\ getFarsi_iteration "salam" 4 "سالا" = Returned (5, "سالام").
Proof. repeat split; vm_compute; reflexivity. Qed.

(** C10.  Every index of the scan is in bounds.  The lookahead reads a byte
    exactly when [index+1 < len(str)], and that byte is present; every turn
    of the loop returns, with the cursor moved forward and not past the end;
    and the whole scan returns, without a panic and within the model's
    bound on the number of turns. *)
Theorem getFarsi_in_bounds (finglish : string) :
  representable finglish ->
  (forall index : Z, 0 <= index < len finglish ->
     (index + 1 < len finglish ->
        exists b, Go.index finglish (index + 1) = Some b
                  /\ peekChar index finglish = Returned (string_of_byte b))
     /\ (len finglish <= index + 1 -> peekChar index finglish = Returned ""))
  /\ (forall (i : Z) (farsi : string), 0 <= i < len finglish ->
        exists b i' farsi',
          Go.index finglish i = Some b
          /\ getFarsi_iteration finglish i farsi = Returned (i', farsi')
          /\ i < i' <= len finglish)
  /\ exists farsi, getFarsi finglish = Returned farsi.
Proof.
  intros Hr. split; [|split].
  - intros index Hi. apply peekChar_spec.
    pose proof (representable_cursor finglish index Hr Hi). lia.
  - intros i farsi Hi.
    destruct (index_range_Some finglish i Hi) as [b Hb].
    destruct (getFarsi_iteration_returns finglish i farsi Hr Hi)
      as (i' & farsi' & Hit & Hi').
    eauto 6.
  - apply (getFarsi_loop_returns finglish Hr); unfold len; lia.
Qed.

Lemma getFarsi_in_bounds_witness :
  representable "khosh"
  /\ peekChar 3 "khosh" = Returned "h"
  /\ peekChar 4 "khosh" = Returned ""
  /\ exists farsi, getFarsi "khosh" = Returned farsi.
Proof.
  assert (Hr : representable "khosh") by (vm_compute; discriminate).
  destruct (getFarsi_in_bounds "khosh" Hr) as (Hpeek & _ & Hret).
  split; [exact Hr|]. split; [reflexivity|]. split; [|exact Hret].
  assert (Hi : 0 <= 4 < len "khosh") by (vm_compute; split; congruence).
  apply (proj2 (Hpeek 4 Hi)). vm_compute. discriminate.
Defined.

(** ** The loop and the recursion agree *)

Lemma length_append (a b : string) :
  String.length (a +:+ b) = (String.length a + String.length b)%nat.
Proof.
  induction a as [|x a IH]; [reflexivity|].
  change (S (String.length (a +:+ b))
          = S (String.length a + String.length b)).
  now rewrite IH.
Qed.

Lemma len_append (a b : string) : len (a +:+ b) = len a + len b.
Proof. unfold len. rewrite length_append. lia. Qed.

Lemma get_append_r (pre suf : string) (n : nat) :
  String.get (String.length pre + n) (pre +:+ suf) = String.get n suf.
Proof. induction pre as [|c pre IH]; [reflexivity|exact IH]. Qed.

Lemma index_append_r (pre suf : string) (k : Z) :
  0 <= k -> Go.index (pre +:+ suf) (len pre + k) = Go.index suf k.
Proof.
  intros Hk. unfold Go.index, len.
  destruct (Z.ltb_spec (Z.of_nat (String.length pre) + k) 0) as [Hneg|_];
    [lia|].
  destruct (Z.ltb_spec k 0) as [Hneg|_]; [lia|].
  replace (Z.to_nat (Z.of_nat (String.length pre) + k))
    with (String.length pre + Z.to_nat k)%nat by lia.
  apply get_append_r.
Qed.

(** A letter of a digraph not followed by ['h'] stands for itself. *)
Lemma scan_no_digraph (suf : string) :
  (forall suf', suf <> String "h"%char suf') ->
  scan (String "c"%char suf) = "س" +:+ scan suf
  /\ scan (String "g"%char suf) = "گ" +:+ scan suf
  /\ scan (String "k"%char suf) = "ک" +:+ scan suf
  /\ scan (String "s"%char suf) = "س" +:+ scan suf.
Proof.
  intros Hno. destruct suf as [|h suf']; [repeat split; reflexivity|].
  each_byte h; try (repeat split; reflexivity).
  now destruct (Hno suf').
Qed.

(** One turn of the loop with the cursor between [pre] and [String b suf]:
    it appends what [scan] puts first, and takes one byte, or two when [suf]
    starts with ['h'] and [scan] skips it. *)
Lemma getFarsi_iteration_scan (pre suf : string) (b : ascii) (farsi : string) :
  representable (pre +:+ String b suf) ->
  exists out,
    (getFarsi_iteration (pre +:+ String b suf) (len pre) farsi
       = Returned (len pre + 1, farsi +:+ out)
     /\ scan (String b suf) = out +:+ scan suf)
    \/ (exists suf', suf = String "h"%char suf'
        /\ getFarsi_iteration (pre +:+ String b suf) (len pre) farsi
           = Returned (len pre + 2, farsi +:+ out)
        /\ scan (String b suf) = out +:+ scan suf').
Proof.
  intros Hr.
  assert (Hlen : len (pre +:+ String b suf) = len pre + 1 + len suf).
  { rewrite len_append. unfold len. cbn [String.length]. lia. }
  assert (Hpos : 0 <= len pre /\ 0 <= len suf) by (unfold len; lia).
  assert (Hidx : Go.index (pre +:+ String b suf) (len pre) = Some b).
  { rewrite <- (Z.add_0_r (len pre)) at 1. now rewrite index_append_r. }
  assert (Hnext : Go.index (pre +:+ String b suf) (len pre + 1)
                  = Go.index suf 0).
  { rewrite index_append_r by lia. reflexivity. }
  unfold representable in Hr. rewrite Hlen in Hr.
  assert (Hc : int_min <= len pre < int_max)
    by (unfold int_min, int_max in *; lia).
  unfold getFarsi_iteration, getFarsi_switch. rewrite Hidx. run_step.
  rewrite !peekChar_branch by lia. rewrite Hnext.
  rewrite (int_add_1 (len pre) Hc).
  destruct (decide (Go.index suf 0 = Some "h"%char)) as [Hh|Hh].
  - destruct suf as [|h suf']; [discriminate|].
    injection Hh as ->.
    assert (Hc' : int_min <= len pre + 1 < int_max).
    { assert (Hs : len (String "h"%char suf') = 1 + len suf')
        by (unfold len; cbn [String.length]; lia).
      assert (0 <= len suf') by (unfold len; lia).
      unfold int_min, int_max in *. lia. }
    each_byte b; run_step;
      rewrite ?(int_add_1 (len pre) Hc), ?(int_add_1 (len pre + 1) Hc');
      first
        [ eexists; left; split; reflexivity
        | exists ""; left; split; [now rewrite append_empty_r|reflexivity]
        | eexists; right; exists suf'; split; [reflexivity|];
          split; [|reflexivity]; do 2 f_equal; lia ].
  - assert (Hno : forall suf', suf <> String "h"%char suf').
    { intros suf' ->. now apply Hh. }
    destruct (scan_no_digraph suf Hno) as (Sc & Sg & Sk & Ss).
    each_byte b; run_step; rewrite ?(int_add_1 (len pre) Hc);
      first
        [ eexists; left; split; [reflexivity|]; first [reflexivity|eassumption]
        | exists ""; left; split; [now rewrite append_empty_r|reflexivity] ].
Qed.

Lemma getFarsi_loop_scan (fuel : nat) :
  forall (pre suf farsi : string),
    representable (pre +:+ suf) -> (String.length suf <= fuel)%nat ->
    getFarsi_loop fuel (pre +:+ suf) (len pre) farsi
    = Returned (farsi +:+ scan suf).
Proof.
  induction fuel as [|fuel IH]; intros pre suf farsi Hr Hfuel;
    destruct suf as [|b suf]; cbn [String.length] in Hfuel; try lia.
  - cbn [getFarsi_loop]. rewrite len_append.
    destruct (Z.ltb_spec (len pre) (len pre + len "")) as [Hlt|_];
      [unfold len in Hlt; cbn [String.length] in Hlt; lia|].
    cbn [scan]. now rewrite append_empty_r.
  - cbn [getFarsi_loop]. rewrite len_append.
    destruct (Z.ltb_spec (len pre) (len pre + len "")) as [Hlt|_];
      [unfold len in Hlt; cbn [String.length] in Hlt; lia|].
    cbn [scan]. now rewrite append_empty_r.
  - cbn [getFarsi_loop].
    destruct (Z.ltb_spec (len pre) (len (pre +:+ String b suf))) as [_|Hge].
    2:{ rewrite len_append in Hge. unfold len in Hge.
        cbn [String.length] in Hge. lia. }
    destruct (getFarsi_iteration_scan pre suf b farsi Hr)
      as [out [[Hit Hsc]|(suf' & -> & Hit & Hsc)]];
      rewrite Hit, Hsc; run_step.
    + replace (pre +:+ String b suf) with ((pre +:+ String b "") +:+ suf)
        in * by (now rewrite append_assoc).
      replace (len pre + 1) with (len (pre +:+ String b ""))
        by (rewrite len_append; reflexivity).
      rewrite IH by (auto; lia). now rewrite append_assoc.
    + replace (pre +:+ String b (String "h" suf'))
        with ((pre +:+ String b (String "h" "")) +:+ suf')
        in * by (now rewrite append_assoc).
      replace (len pre + 2) with (len (pre +:+ String b (String "h" "")))
        by (rewrite len_append; reflexivity).
      cbn [String.length] in Hfuel.
      rewrite IH by (auto; lia). now rewrite append_assoc.
Qed.

(** [getFarsi] returns [scan] of its argument. *)
Lemma getFarsi_scan (finglish : string) :
  representable finglish -> getFarsi finglish = Returned (scan finglish).
Proof.
  intros Hr. unfold getFarsi.
  apply (getFarsi_loop_scan (String.length finglish) "" finglish "" Hr).
  lia.
Qed.

(** ** What the output is made of, and what a second pass does to it *)

Lemma all_bytes_append (test : ascii -> bool) (a b : string) :
  all_bytes test (a +:+ b) = all_bytes test a && all_bytes test b.
Proof.
  induction a as [|x a IH]; [reflexivity|].
  change (test x && all_bytes test (a +:+ b)
          = test x && all_bytes test a && all_bytes test b).
  rewrite IH. now destruct (test x).
Qed.

(** What [scan] puts first holds no lowercase letter. *)
Lemma scan_first (b : ascii) (suf : string) :
  exists out,
    all_bytes not_in_table out = true
    /\ (scan (String b suf) = out +:+ scan suf
        \/ exists suf', suf = String "h"%char suf'
                        /\ scan (String b suf) = out +:+ scan suf').
Proof.
  destruct suf as [|h suf'];
    [|destruct (ascii_dec h "h"%char) as [->|Hne]].
  - each_byte b;
      first [ eexists; split; [|left; reflexivity]; reflexivity
            | exists ""; split; [reflexivity|left; reflexivity] ].
  - each_byte b;
      first [ eexists; split; [|left; reflexivity]; reflexivity
            | exists ""; split; [reflexivity|left; reflexivity]
            | eexists; split; [|right; eexists; split; reflexivity];
              reflexivity ].
  - assert (Hno : forall suf'', String h suf' <> String "h"%char suf'')
      by congruence.
    destruct (scan_no_digraph (String h suf') Hno) as (Sc & Sg & Sk & Ss).
    each_byte b;
      first [ eexists; split; [|left; reflexivity]; reflexivity
            | exists ""; split; [reflexivity|left; reflexivity]
            | eexists; split; [|left; eassumption]; reflexivity ].
Qed.

(** No byte of the output is a lowercase letter. *)
Lemma scan_not_in_table (s : string) : all_bytes not_in_table (scan s) = true.
Proof.
  assert (H : forall (n : nat) (s : string),
             (String.length s <= n)%nat ->
             all_bytes not_in_table (scan s) = true).
  { clear s. induction n as [|n IH]; intros [|b suf] Hn;
      cbn [String.length] in Hn; try reflexivity; try lia.
    destruct (scan_first b suf) as (out & Hout & [Hsc|(suf' & -> & Hsc)]);
      rewrite Hsc, all_bytes_append, Hout; cbn [andb]; apply IH;
      cbn [String.length] in *; lia. }
  now apply (H (String.length s)).
Qed.

(** On a string without lowercase letters every turn takes the default
    case. *)
Lemma scan_reencode (s : string) :
  all_bytes not_in_table s = true -> scan s = reencode s.
Proof.
  induction s as [|b s IH]; [reflexivity|].
  cbn [all_bytes]. destruct (not_in_table b) eqn:E; [|discriminate].
  cbn [andb]. intros Hs. cbn [reencode]. rewrite <- (IH Hs).
  each_byte b; try reflexivity; vm_compute in E; discriminate E.
Qed.

Lemma reencode_ascii (s : string) :
  all_bytes is_ascii s = true -> reencode s = s.
Proof.
  induction s as [|b s IH]; [reflexivity|].
  cbn [all_bytes reencode]. intros [Hb Hs]%andb_prop.
  rewrite (IH Hs), string_of_byte_ascii; [reflexivity|].
  now apply N.ltb_lt.
Qed.

Lemma reencode_length (s : string) :
  (String.length s <= String.length (reencode s))%nat.
Proof.
  induction s as [|b s IH]; [reflexivity|].
  cbn [reencode]. rewrite length_append. unfold string_of_byte.
  destruct (N.ltb (N_of_ascii b) 128); cbn [String.length]; lia.
Qed.

Lemma reencode_fixed (s : string) :
  reencode s = s -> all_bytes is_ascii s = true.
Proof.
  induction s as [|b s IH]; [reflexivity|].
  cbn [reencode all_bytes]. unfold is_ascii at 1, string_of_byte.
  destruct (N.ltb (N_of_ascii b) 128); intros H.
  - injection H as H. now rewrite IH.
  - apply (f_equal String.length) in H.
    pose proof (reencode_length s) as Hlen.
    change (S (S (String.length (reencode s))) = S (String.length s)) in H.
    lia.
Qed.

(** The second pass re-encodes every byte of the output of the first. *)
Lemma getFarsi_second_pass (x : string) :
  representable x -> representable (scan x) ->
  (farsi ← getFarsi x; getFarsi farsi) = Returned (reencode (scan x)).
Proof.
  intros Hx Hy. rewrite (getFarsi_scan x Hx). run_step.
  rewrite (getFarsi_scan _ Hy). f_equal. apply scan_reencode.
  apply scan_not_in_table.
Qed.

(** So the second pass leaves the output alone exactly when the output is
    made of ASCII bytes only, that is, when it holds no Farsi letter. *)
Lemma getFarsi_second_pass_same_iff (x : string) :
  representable x -> representable (scan x) ->
  (farsi ← getFarsi x; getFarsi farsi) = getFarsi x
  <-> all_bytes is_ascii (scan x) = true.
Proof.
  intros Hx Hy. rewrite (getFarsi_second_pass x Hx Hy), (getFarsi_scan x Hx).
  split.
  - intros H. injection H as H. now apply reencode_fixed.
  - intros H. now rewrite reencode_ascii.
Qed.

(** A string of ASCII bytes without lowercase letters is returned as it
    is. *)
Lemma getFarsi_ascii_unchanged (s : string) :
  representable s ->
  all_bytes not_in_table s = true -> all_bytes is_ascii s = true ->
  getFarsi s = Returned s.
Proof.
  intros Hr Ht Ha.
  now rewrite (getFarsi_scan s Hr), (scan_reencode s Ht), (reencode_ascii s Ha).
Qed.

(** Bytes of ASCII that are no lowercase letters come out as they went in. *)
Example getFarsi_ascii_passthrough :
  getFarsi "5!" = Returned "5!"
  /\ getFarsi "SH, K 42?" = Returned "SH, K 42?"
  /\ getFarsi "Sh" = Returned "Sه".
Proof. repeat split; vm_compute; reflexivity. Qed.

(** C3.  The default case appends [string(finglish[i])], and the conversion
    of a byte to a string is the UTF-8 encoding of the code point of that
    value.  A byte from 0x80 on is therefore not appended as it is: the
    letter shin, bytes D8 B4, comes out as the four bytes C3 98 C2 B4. *)
Theorem getFarsi_default_case_reencodes :
  "ش" = bytes [216; 180]%N
  /\ in_table (ascii_of_N 216) = false
  /\ in_table (ascii_of_N 180) = false
  /\ getFarsi_iteration "ش" 0 "" = Returned (1, bytes [195; 152]%N)
  /\ getFarsi "ش" = Returned (bytes [195; 152; 194; 180]%N)
  /\ getFarsi "ش" <> Returned "ش".
Proof. repeat split; try (vm_compute; reflexivity). vm_compute. discriminate. Qed.

(** C2.  A second pass changes the output of the first: "a" gives alef,
    bytes D8 A7, and alef gives the four bytes C3 98 C2 A7, by the
    conversion of the default case. *)
Theorem getFarsi_second_pass_differs :
  getFarsi "a" = Returned "ا"
  /\ "ا" = bytes [216; 167]%N
  /\ (farsi ← getFarsi "a"; getFarsi farsi)
     = Returned (bytes [195; 152; 194; 167]%N)
  /\ (farsi ← getFarsi "a"; getFarsi farsi) <> getFarsi "a".
Proof. repeat split; try (vm_compute; reflexivity). vm_compute. discriminate. Qed.

(** ** The handler *)

Lemma ascii_lower_idempotent (b : ascii) :
  ascii_lower (ascii_lower b) = ascii_lower b.
Proof. each_byte b; reflexivity. Qed.

Lemma ascii_ToLower_idempotent (s : string) :
  ascii_ToLower (ascii_ToLower s) = ascii_ToLower s.
Proof.
  induction s as [|b s IH]; [reflexivity|].
  cbn [ascii_ToLower]. now rewrite ascii_lower_idempotent, IH.
Qed.

Lemma sample_world_ok_forward : World_ok (sample_world order_forward).
Proof. intros m. reflexivity. Qed.

Lemma sample_world_ok_backward : World_ok (sample_world order_backward).
Proof. intros m. apply reverse_Permutation. Qed.

(** An update that passes the check of its id reaches [sendToClient] with
    the chat id and the lowercased text. *)
Lemma Handler_valid_update (w : World) (body : string) (u : update) :
  json_Decode_update w body = inr u -> UpdateId u <> 0 ->
  Handler w body =
    match sendToClient w (ID (Chat (Message u)))
                       (strings_ToLower w (Text (Message u))) with
    | (sent, (telegramResponseBody, Some err)) =>
        sent ++ [log_Printf "got error %s from telegram, response body is %s"
                            [ArgS (Error err); ArgS telegramResponseBody]]
    | (sent, (_, None)) =>
        sent ++ [log_Printf "successfully distributed to chat id %d"
                            [ArgD (ID (Chat (Message u)))]]
    end.
Proof.
  intros Hdec Hid. unfold Handler, parseIncomingRequest. rewrite Hdec.
  destruct (Z.eqb_spec (UpdateId u) 0) as [E|_]; [contradiction|].
  reflexivity.
Qed.

Lemma converter_requests_app (t1 t2 : list event) :
  converter_requests (t1 ++ t2) = converter_requests t1 ++ converter_requests t2.
Proof.
  induction t1 as [|e t1 IH]; [reflexivity|].
  destruct e; cbn [converter_requests app]; now rewrite IH.
Qed.

Lemma posted_forms_app (t1 t2 : list event) :
  posted_forms (t1 ++ t2) = posted_forms t1 ++ posted_forms t2.
Proof.
  induction t1 as [|e t1 IH]; [reflexivity|].
  destruct e; cbn [posted_forms app]; now rewrite IH.
Qed.

(** [getFarsiAPI] sends one request, whose body is its argument. *)
Lemma getFarsiAPI_trace (w : World) (finglish : string) :
  (getFarsiAPI w finglish).1 = [http_Do "POST" converter_url finglish].
Proof.
  unfold getFarsiAPI.
  destruct (client_Do w finglish) as [err|[err|resp_body]]; reflexivity.
Qed.

Lemma sendToClient_requests (w : World) (chatID : Z) (incomingText : string) :
  converter_requests (sendToClient w chatID incomingText).1
  = if String.eqb incomingText "/start" then [] else [incomingText].
Proof.
  unfold sendToClient. destruct (String.eqb incomingText "/start");
    [reflexivity|].
  pose proof (getFarsiAPI_trace w incomingText) as Htr.
  destruct (getFarsiAPI w incomingText) as [called [text [err|]]];
    cbn [fst] in Htr; subst called; [reflexivity|].
  destruct (post_form w (telegramAPI w) (strconv_Itoa chatID) text)
    as [err|[err|resp]]; reflexivity.
Qed.

(** C6.  [sendToClient] given "/start" returns at once, for every chat id:
    nothing is sent, the body is empty and the error is nil.  A valid
    update whose lowercased text is "/start" makes the handler write one
    log line and do nothing else. *)
Theorem sendToClient_start :
  (forall (w : World) (chatID : Z),
      sendToClient w chatID "/start" = ([], ("", None)))
  /\ (forall (w : World) (body : string) (u : update),
        json_Decode_update w body = inr u -> UpdateId u <> 0 ->
        strings_ToLower w (Text (Message u)) = "/start" ->
        Handler w body
        = [log_Printf "successfully distributed to chat id %d"
                      [ArgD (ID (Chat (Message u)))]]
        /\ converter_requests (Handler w body) = []
        /\ posted_forms (Handler w body) = []).
Proof.
  split; [reflexivity|].
  intros w body u Hdec Hid Hstart.
  rewrite (Handler_valid_update w body u Hdec Hid), Hstart.
  repeat split; reflexivity.
Qed.

Lemma sendToClient_start_witness :
  json_Decode_update (sample_world order_forward) "payload:start"
  = inr {| UpdateId := 7; Message := sample_message "/Start" |}
  /\ ascii_ToLower "/Start" = "/start"
  /\ Handler (sample_world order_forward) "payload:start"
     = [log_Printf "successfully distributed to chat id %d" [ArgD 42]].
Proof.
  split; [reflexivity|]. split; [reflexivity|].
  apply (proj2 sendToClient_start (sample_world order_forward) "payload:start"
           {| UpdateId := 7; Message := sample_message "/Start" |});
    [reflexivity|discriminate|reflexivity].
Defined.

(** C7.  A decoded update whose id is 0 is refused: [parseIncomingRequest]
    returns an error and the handler stops after two log lines, before any
    request is sent.  A decoded update with any other id is returned as it
    was decoded, whatever its text. *)
Theorem parseIncomingRequest_update_id (w : World) (body : string) (u : update) :
  json_Decode_update w body = inr u ->
  (UpdateId u = 0 ->
     exists err,
       parseIncomingRequest w body
       = ([log_Printf "invalid update id, got update id = 0" []], inl err)
       /\ Handler w body
          = [log_Printf "invalid update id, got update id = 0" [];
             log_Printf "error parsing incoming update, %s" [ArgS (Error err)]]
       /\ converter_requests (Handler w body) = []
       /\ posted_forms (Handler w body) = [])
  /\ (UpdateId u <> 0 -> parseIncomingRequest w body = ([], inr u)).
Proof.
  intros Hdec. split; intros Hid.
  - eexists. unfold Handler, parseIncomingRequest. rewrite Hdec, Hid.
    cbn [Z.eqb]. repeat split; reflexivity.
  - unfold parseIncomingRequest. rewrite Hdec.
    destruct (Z.eqb_spec (UpdateId u) 0) as [E|_]; [contradiction|].
    reflexivity.
Qed.

Lemma parseIncomingRequest_update_id_witness :
  (exists err,
     parseIncomingRequest (sample_world order_forward) "payload:zero-id"
     = ([log_Printf "invalid update id, got update id = 0" []], inl err))
  /\ parseIncomingRequest (sample_world order_forward) "payload:lower-case"
     = ([], inr {| UpdateId := 8; Message := sample_message "salam" |}).
Proof.
  split.
  - destruct (proj1 (parseIncomingRequest_update_id
                       (sample_world order_forward) "payload:zero-id"
                       {| UpdateId := 0; Message := sample_message "salam" |}
                       eq_refl) eq_refl) as (err & Hparse & _).
    exists err. exact Hparse.
  - apply (proj2 (parseIncomingRequest_update_id
                    (sample_world order_forward) "payload:lower-case"
                    {| UpdateId := 8; Message := sample_message "salam" |}
                    eq_refl)).
    discriminate.
Defined.

(** C8.  The text that reaches the transliteration service is the lowercase
    form of the text of the update.  So an update and the same update with
    its text already in lowercase are handled alike: same request to the
    service, same reply, same log. *)
Theorem Handler_folds_case :
  (forall (w : World) (body : string) (u : update),
      json_Decode_update w body = inr u -> UpdateId u <> 0 ->
      converter_requests (Handler w body)
      = if String.eqb (strings_ToLower w (Text (Message u))) "/start" then []
        else [strings_ToLower w (Text (Message u))])
  /\ (forall (w : World) (body body' : string) (u u' : update),
        json_Decode_update w body = inr u ->
        json_Decode_update w body' = inr u' ->
        UpdateId u <> 0 -> UpdateId u' <> 0 ->
        ID (Chat (Message u')) = ID (Chat (Message u)) ->
        Text (Message u') = strings_ToLower w (Text (Message u)) ->
        strings_ToLower w (Text (Message u')) = Text (Message u') ->
        Handler w body' = Handler w body).
Proof.
  split.
  - intros w body u Hdec Hid.
    rewrite (Handler_valid_update w body u Hdec Hid).
    pose proof (sendToClient_requests w (ID (Chat (Message u)))
                  (strings_ToLower w (Text (Message u)))) as Hreq.
    destruct (sendToClient w (ID (Chat (Message u)))
                (strings_ToLower w (Text (Message u))))
      as [sent [resp [err|]]];
      cbn [fst] in Hreq; rewrite converter_requests_app, Hreq;
      cbn [converter_requests]; apply app_nil_r.
  - intros w body body' u u' Hdec Hdec' Hid Hid' Hchat Htext Hlower.
    rewrite (Handler_valid_update w body u Hdec Hid).
    rewrite (Handler_valid_update w body' u' Hdec' Hid').
    rewrite Hlower, Htext, Hchat. reflexivity.
Qed.

Lemma Handler_folds_case_witness :
  converter_requests (Handler (sample_world order_forward) "payload:mixed-case")
  = ["salam"]
  /\ Handler (sample_world order_forward) "payload:lower-case"
     = Handler (sample_world order_forward) "payload:mixed-case".
Proof.
  split.
  - apply (proj1 Handler_folds_case (sample_world order_forward)
             "payload:mixed-case"
             {| UpdateId := 8; Message := sample_message "SaLam" |});
      [reflexivity|discriminate].
  - apply (proj2 Handler_folds_case (sample_world order_forward)
             "payload:mixed-case" "payload:lower-case"
             {| UpdateId := 8; Message := sample_message "SaLam" |}
             {| UpdateId := 8; Message := sample_message "salam" |});
      try reflexivity; discriminate.
Defined.

(** ** The answer of the transliteration service *)

(** What [getFarsiAPI] returns for a decoded object: the values of its map
    joined in the order this run enumerates them. *)
Lemma getFarsiAPI_result_decoded (w : World) (resp_body : string)
      (members : list (string * string)) :
  json_object w resp_body = inr members ->
  getFarsiAPI_result w resp_body
  = (range_concat (range_order w (map_of_members members)), None).
Proof.
  intros Hobj. unfold getFarsiAPI_result, json_Unmarshal. now rewrite Hobj.
Qed.

(** With one member there is one order, and the output is its value. *)
Lemma getFarsiAPI_result_single (w : World) (resp_body key value : string) :
  World_ok w ->
  json_object w resp_body = inr [(key, value)] ->
  getFarsiAPI_result w resp_body = (value, None).
Proof.
  intros Hok Hobj. rewrite (getFarsiAPI_result_decoded w _ _ Hobj).
  pose proof (Hok (map_of_members [(key, value)])) as Hperm.
  cbn [map_of_members foldl fst snd] in Hperm.
  rewrite insert_empty, map_to_list_singleton in Hperm.
  apply Permutation_singleton_r in Hperm.
  cbn [map_of_members foldl fst snd]. rewrite insert_empty, Hperm.
  reflexivity.
Qed.

(** C9.  The output depends on the order in which the run enumerates the
    map.  For the object with members a: "x" and b: "y", two runs that
    differ only in that order, both orders being permutations of the
    entries, return "xy" and "yx". *)
Theorem getFarsiAPI_result_depends_on_order :
  World_ok (sample_world order_forward)
  /\ World_ok (sample_world order_backward)
  /\ json_object (sample_world order_forward) "response"
     = inr [("a", "x"); ("b", "y")]
  /\ json_object (sample_world order_backward) "response"
     = inr [("a", "x"); ("b", "y")]
  /\ getFarsiAPI_result (sample_world order_forward) "response" = ("xy", None)
  /\ getFarsiAPI_result (sample_world order_backward) "response" = ("yx", None).
Proof.
  split; [exact sample_world_ok_forward|].
  split; [exact sample_world_ok_backward|].
  repeat split; vm_compute; reflexivity.
Qed.

(** ** The output of a text in terms of the outputs of its parts *)

(** A byte not followed by ['h'] is rendered on its own. *)
Lemma scan_cons_no_h (b : ascii) (suf : string) :
  no_h_first suf ->
  scan (String b suf) = scan (String b "") +:+ scan suf.
Proof.
  intros Hno. destruct (scan_no_digraph suf Hno) as (Sc & Sg & Sk & Ss).
  each_byte b; first [assumption | reflexivity].
Qed.

(** A byte followed by ['h']: the two make a digraph after ['c'], ['g'],
    ['k'], ['s'], and are rendered one after the other after any other
    byte. *)
Lemma scan_cons_h (b : ascii) (suf : string) :
  scan (String b (String "h"%char suf))
  = if digraph_letter b then scan (String b "h") +:+ scan suf
    else scan (String b "") +:+ scan (String "h"%char suf).
Proof. each_byte b; reflexivity. Qed.

Lemma scan_append (pre suf : string) :
  no_h_first suf -> scan (pre +:+ suf) = scan pre +:+ scan suf.
Proof.
  intros Hno.
  assert (H : forall (n : nat) (pre : string),
             (String.length pre <= n)%nat ->
             scan (pre +:+ suf) = scan pre +:+ scan suf).
  { clear pre. induction n as [|n IH]; intros [|b pre] Hn;
      cbn [String.length] in Hn; try reflexivity; try lia.
    change (String b pre +:+ suf) with (String b (pre +:+ suf)).
    destruct pre as [|h pre];
      [|destruct (ascii_dec h "h"%char) as [->|Hne]].
    - change ("" +:+ suf) with suf. now apply scan_cons_no_h.
    - change (String "h"%char pre +:+ suf)
        with (String "h"%char (pre +:+ suf)).
      rewrite (scan_cons_h b (pre +:+ suf)), (scan_cons_h b pre).
      destruct (digraph_letter b).
      + rewrite IH by (cbn [String.length] in Hn; lia).
        now rewrite append_assoc.
      + change (String "h"%char (pre +:+ suf))
          with (String "h"%char pre +:+ suf).
        rewrite IH by lia. now rewrite append_assoc.
    - rewrite (scan_cons_no_h b (String h pre +:+ suf)).
      2:{ intros suf'. change (String h pre +:+ suf)
            with (String h (pre +:+ suf)). congruence. }
      rewrite (scan_cons_no_h b (String h pre)) by (intros suf'; congruence).
      rewrite IH by lia. now rewrite append_assoc. }
  now apply (H (String.length pre)).
Qed.

Lemma representable_append (a b : string) :
  representable (a +:+ b) -> representable a /\ representable b.
Proof.
  unfold representable. rewrite len_append. unfold len. lia.
Qed.

(** The output is put together from the renderings of single bytes and of
    digraphs: what holds of those pieces, and is kept by putting texts
    together, holds of every input and its output. *)
Lemma scan_pieces (R : string -> string -> Prop) :
  R "" "" ->
  (forall x1 y1 x2 y2, R x1 y1 -> R x2 y2 -> R (x1 +:+ x2) (y1 +:+ y2)) ->
  (forall b, R (String b "") (scan (String b ""))) ->
  (forall b, digraph_letter b = true ->
             R (String b "h") (scan (String b "h"))) ->
  forall s, R s (scan s).
Proof.
  intros Hnil Happ Hone Htwo.
  assert (H : forall (n : nat) (s : string),
             (String.length s <= n)%nat -> R s (scan s)).
  { induction n as [|n IH]; intros [|b suf] Hn;
      cbn [String.length] in Hn; try exact Hnil; try lia.
    destruct suf as [|h suf];
      [|destruct (ascii_dec h "h"%char) as [->|Hne]].
    - apply Hone.
    - rewrite scan_cons_h. destruct (digraph_letter b) eqn:Hd.
      + change (String b (String "h"%char suf)) with (String b "h" +:+ suf).
        apply Happ; [now apply Htwo|].
        apply IH. cbn [String.length] in Hn. lia.
      + change (String b (String "h"%char suf))
          with (String b "" +:+ String "h"%char suf) at 1.
        apply Happ; [apply Hone|apply IH; lia].
    - rewrite scan_cons_no_h by (intros suf'; congruence).
      change (String b (String h suf))
        with (String b "" +:+ String h suf) at 1.
      apply Happ; [apply Hone|apply IH; lia]. }
  intros s. now apply (H (String.length s)).
Qed.

Lemma utf8_short_append (x y : string) :
  utf8_short x = true -> utf8_short y = true -> utf8_short (x +:+ y) = true.
Proof.
  intros Hx Hy.
  assert (H : forall (n : nat) (x : string),
             (String.length x <= n)%nat ->
             utf8_short x = true -> utf8_short (x +:+ y) = true).
  { clear x Hx. induction n as [|n IH]; intros [|b x] Hn;
      cbn [String.length] in Hn; try (intros _; exact Hy); try lia.
    change (String b x +:+ y) with (String b (x +:+ y)).
    cbn [utf8_short]. destruct (is_ascii b).
    - apply IH. lia.
    - destruct x as [|c x]; [discriminate|].
      change (String c x +:+ y) with (String c (x +:+ y)).
      intros [Hbc Hrest]%andb_prop. rewrite Hbc. cbn [andb].
      apply IH; [cbn [String.length] in Hn; lia|exact Hrest]. }
  now apply (H (String.length x)).
Qed.

Lemma scan_utf8_short (s : string) : utf8_short (scan s) = true.
Proof.
  apply (scan_pieces (fun _ out => utf8_short out = true)).
  - reflexivity.
  - intros _ y1 _ y2. apply utf8_short_append.
  - intros b. each_byte b; reflexivity.
  - intros b. each_byte b; try discriminate; reflexivity.
Qed.

Lemma scan_length (s : string) :
  (String.length (scan s) <= 2 * String.length s)%nat.
Proof.
  apply (scan_pieces
           (fun x y => (String.length y <= 2 * String.length x)%nat)).
  - cbn. lia.
  - intros x1 y1 x2 y2 H1 H2. rewrite !length_append. lia.
  - intros b. each_byte b; vm_compute; lia.
  - intros b. each_byte b; try discriminate; vm_compute; lia.
Qed.

(** ** Further properties of the transliterator *)

(** X1.  A text cut before a byte other than ['h'] is transliterated part by
    part: the output for the whole is the output for the part before the
    cut followed by the output for the part after it. *)
Theorem getFarsi_append (pre suf : string) :
  representable (pre +:+ suf) ->
  (forall suf', suf <> String "h"%char suf') ->
  exists before after,
    getFarsi pre = Returned before
    /\ getFarsi suf = Returned after
    /\ getFarsi (pre +:+ suf) = Returned (before +:+ after).
Proof.
  intros Hr Hno. destruct (representable_append pre suf Hr) as [Hp Hs].
  exists (scan pre), (scan suf).
  rewrite !getFarsi_scan by assumption. now rewrite (scan_append pre suf Hno).
Qed.

Lemma getFarsi_append_witness :
  exists before after,
    getFarsi "khosh" = Returned before
    /\ getFarsi " amadid" = Returned after
    /\ getFarsi "khosh amadid" = Returned (before +:+ after).
Proof.
  apply (getFarsi_append "khosh" " amadid").
  - vm_compute. discriminate.
  - intros suf'. discriminate.
Defined.

(** X2.  No byte of the output is a lowercase letter of ASCII: every such
    letter of the input is replaced or dropped. *)
Theorem getFarsi_output_no_lowercase (finglish : string) :
  representable finglish ->
  exists farsi,
    getFarsi finglish = Returned farsi
    /\ all_bytes not_in_table farsi = true.
Proof.
  intros Hr. exists (scan finglish).
  split; [now apply getFarsi_scan|apply scan_not_in_table].
Qed.

Lemma getFarsi_output_no_lowercase_witness :
  exists farsi,
    getFarsi "Salam, khoobi?" = Returned farsi
    /\ all_bytes not_in_table farsi = true.
Proof.
  apply (getFarsi_output_no_lowercase "Salam, khoobi?").
  vm_compute. discriminate.
Defined.

(** X3.  The output is at most twice as long as the input, in bytes. *)
Theorem getFarsi_output_length (finglish : string) :
  representable finglish ->
  exists farsi,
    getFarsi finglish = Returned farsi
    /\ (String.length farsi <= 2 * String.length finglish)%nat.
Proof.
  intros Hr. exists (scan finglish).
  split; [now apply getFarsi_scan|apply scan_length].
Qed.

Lemma getFarsi_output_length_witness :
  exists farsi,
    getFarsi "salam" = Returned farsi
    /\ (String.length farsi <= 2 * String.length "salam")%nat.
Proof.
  apply (getFarsi_output_length "salam"). vm_compute. discriminate.
Defined.

(** X4.  Whatever the bytes of the input, the output is well-formed UTF-8,
    made of sequences of one and two bytes. *)
Theorem getFarsi_output_utf8 (finglish : string) :
  representable finglish ->
  exists farsi,
    getFarsi finglish = Returned farsi /\ utf8_short farsi = true.
Proof.
  intros Hr. exists (scan finglish).
  split; [now apply getFarsi_scan|apply scan_utf8_short].
Qed.

Lemma getFarsi_output_utf8_witness :
  utf8_short (bytes [255; 115; 104; 128]%N) = false
  /\ exists farsi,
       getFarsi (bytes [255; 115; 104; 128]%N) = Returned farsi
       /\ utf8_short farsi = true.
Proof.
  split; [reflexivity|].
  apply (getFarsi_output_utf8 (bytes [255; 115; 104; 128]%N)).
  vm_compute. discriminate.
Defined.

(** X5.  Run on its own output, [getFarsi] applies the conversion
    [string(b)] to every byte of it; it returns that output unchanged
    exactly when the output holds bytes of ASCII only. *)
Theorem getFarsi_on_output (finglish farsi : string) :
  representable finglish ->
  getFarsi finglish = Returned farsi ->
  representable farsi ->
  getFarsi farsi = Returned (reencode farsi)
  /\ (getFarsi farsi = Returned farsi <-> all_bytes is_ascii farsi = true).
Proof.
  intros Hx Hrun Hy. rewrite (getFarsi_scan finglish Hx) in Hrun.
  injection Hrun as <-.
  assert (Hsecond : getFarsi (scan finglish)
                    = Returned (reencode (scan finglish))).
  { rewrite (getFarsi_scan _ Hy). f_equal. apply scan_reencode.
    apply scan_not_in_table. }
  split; [exact Hsecond|]. rewrite Hsecond. split.
  - intros H. injection H as H. now apply reencode_fixed.
  - intros H. now rewrite reencode_ascii.
Qed.

Lemma getFarsi_on_output_witness :
  getFarsi "E-e 12" = Returned "E- 12"
  /\ getFarsi "E- 12" = Returned (reencode "E- 12")
  /\ (getFarsi "E- 12" = Returned "E- 12"
      <-> all_bytes is_ascii "E- 12" = true).
Proof.
  split; [reflexivity|].
  apply (getFarsi_on_output "E-e 12" "E- 12");
    [vm_compute; discriminate|reflexivity|vm_compute; discriminate].
Defined.

(** X6.  A text of ASCII bytes none of which is a lowercase letter is
    returned as it is. *)
Theorem getFarsi_keeps_plain_ascii (finglish : string) :
  representable finglish ->
  all_bytes (fun b => not_in_table b && is_ascii b) finglish = true ->
  getFarsi finglish = Returned finglish.
Proof.
  intros Hr Hall. rewrite (getFarsi_scan finglish Hr). f_equal.
  clear Hr. induction finglish as [|b s IH]; [reflexivity|].
  cbn [all_bytes] in Hall.
  apply andb_prop in Hall as [[Ht Ha]%andb_prop Hs].
  rewrite scan_reencode.
  - cbn [reencode]. rewrite <- (scan_reencode s).
    + rewrite (IH Hs), string_of_byte_ascii; [reflexivity|].
      now apply N.ltb_lt.
    + clear IH. induction s as [|c s IHs]; [reflexivity|].
      cbn [all_bytes] in *.
      apply andb_prop in Hs as [[Hc _]%andb_prop Hs]. rewrite Hc.
      now apply IHs.
  - cbn [all_bytes]. rewrite Ht. cbn [andb].
    clear IH. induction s as [|c s IHs]; [reflexivity|].
    cbn [all_bytes] in *.
    apply andb_prop in Hs as [[Hc _]%andb_prop Hs]. rewrite Hc.
    now apply IHs.
Qed.

Lemma getFarsi_keeps_plain_ascii_witness :
  getFarsi "HELLO, 42!" = Returned "HELLO, 42!".
Proof.
  apply (getFarsi_keeps_plain_ascii "HELLO, 42!").
  - vm_compute. discriminate.
  - reflexivity.
Defined.

(** X7.  [peekChar] checks its index against the end of the string only.
    At index -1 it returns the first byte; at any index below -1, and at
    the largest [int], where [index+1] wraps around, it panics. *)
Theorem peekChar_outside_cursor (index : Z) (str : string) :
  (int_min <= index < -1 \/ index = int_max ->
     peekChar index str = Panicked)
  /\ (index = -1 ->
      peekChar index str
      = match str with
        | EmptyString => Returned ""
        | String b _ => Returned (string_of_byte b)
        end).
Proof.
  assert (Hlen : 0 <= len str) by (unfold len; lia).
  split.
  - intros Hi. unfold peekChar.
    assert (Hneg : int_add index 1 < 0).
    { destruct Hi as [Hi| ->]; [|reflexivity].
      rewrite int_add_1 by (unfold int_min, int_max in *; lia). lia. }
    destruct (Z.ltb_spec (int_add index 1) (len str)) as [_|Hge]; [|lia].
    unfold Go.index.
    destruct (Z.ltb_spec (int_add index 1) 0) as [_|Hge]; [reflexivity|lia].
  - intros ->. destruct str as [|b rest]; reflexivity.
Qed.

Lemma peekChar_outside_cursor_witness :
  peekChar (-2) "salam" = Panicked
  /\ peekChar int_max "salam" = Panicked
  /\ peekChar (-1) "salam" = Returned "s".
Proof.
  split; [|split].
  - apply (proj1 (peekChar_outside_cursor (-2) "salam")).
    left. unfold int_min. lia.
  - apply (proj1 (peekChar_outside_cursor int_max "salam")). now right.
  - exact (proj2 (peekChar_outside_cursor (-1) "salam") eq_refl).
Defined.

(** X8.  Wherever "ch", "gh", "kh" or "sh" stands in a text, the output is
    the output for what comes before, the letter of the digraph, and the
    output for what comes after. *)
Theorem getFarsi_digraph_anywhere (pre post : string) (c : ascii)
        (digraph : string) :
  representable (pre +:+ String c (String "h"%char post)) ->
  In (c, digraph)
     [("c"%char, "چ"); ("g"%char, "غ"); ("k"%char, "خ"); ("s"%char, "ش")] ->
  exists before after,
    getFarsi pre = Returned before
    /\ getFarsi post = Returned after
    /\ getFarsi (pre +:+ String c (String "h"%char post))
       = Returned (before +:+ digraph +:+ after).
Proof.
  intros Hr Hin.
  destruct (representable_append _ _ Hr) as [Hpre Hrest].
  assert (Hpost : representable post).
  { apply (representable_append (String c "h") post). exact Hrest. }
  exists (scan pre), (scan post).
  rewrite !getFarsi_scan by assumption.
  split; [reflexivity|]. split; [reflexivity|]. f_equal.
  cbn [In] in Hin.
  destruct Hin as [E|[E|[E|[E|[]]]]]; injection E as <- <-;
    (rewrite scan_append by (intros suf'; discriminate)); reflexivity.
Qed.

Lemma getFarsi_digraph_anywhere_witness :
  exists before after,
    getFarsi "a" = Returned before
    /\ getFarsi "ena" = Returned after
    /\ getFarsi "ashena" = Returned (before +:+ "ش" +:+ after).
Proof.
  apply (getFarsi_digraph_anywhere "a" "ena" "s"%char "ش").
  - vm_compute. discriminate.
  - cbn [In]. auto 6.
Defined.

(** X9.  An ['e'] anywhere in a text adds nothing: the output is the output
    for what comes before it followed by the output for what comes after
    it. *)
Theorem getFarsi_silent_e_anywhere (pre post : string) :
  representable (pre +:+ String "e"%char post) ->
  exists before after,
    getFarsi pre = Returned before
    /\ getFarsi post = Returned after
    /\ getFarsi (pre +:+ String "e"%char post) = Returned (before +:+ after).
Proof.
  intros Hr. destruct (representable_append _ _ Hr) as [Hpre Hrest].
  assert (Hpost : representable post).
  { apply (representable_append (String "e"%char "") post). exact Hrest. }
  exists (scan pre), (scan post).
  rewrite !getFarsi_scan by assumption.
  split; [reflexivity|]. split; [reflexivity|]. f_equal.
  rewrite scan_append by (intros suf'; discriminate). reflexivity.
Qed.

Lemma getFarsi_silent_e_anywhere_witness :
  exists before after,
    getFarsi "s" = Returned before
    /\ getFarsi "h" = Returned after
    /\ getFarsi "seh" = Returned (before +:+ after).
Proof.
  apply (getFarsi_silent_e_anywhere "s" "h"). vm_compute. discriminate.
Defined.

(** X10.  The letters with one rendering, ['h'] aside: wherever one of them
    stands in a text, the output is the output for what comes before, the
    letter of the table, and the output for what comes after. *)
Theorem getFarsi_letter_anywhere (pre post : string) (b : ascii)
        (glyph : string) :
  representable (pre +:+ String b post) ->
  In (b, glyph)
     [("a"%char, "ا"); ("b"%char, "ب"); ("d"%char, "د"); ("f"%char, "ف");
      ("i"%char, "ی"); ("j"%char, "ج"); ("l"%char, "ل"); ("m"%char, "م");
      ("n"%char, "ن"); ("o"%char, "و"); ("p"%char, "پ"); ("q"%char, "ک");
      ("r"%char, "ر"); ("t"%char, "ت"); ("u"%char, "و"); ("v"%char, "و");
      ("w"%char, "و"); ("x"%char, "خ"); ("y"%char, "ی"); ("z"%char, "ز")] ->
  exists before after,
    getFarsi pre = Returned before
    /\ getFarsi post = Returned after
    /\ getFarsi (pre +:+ String b post)
       = Returned (before +:+ glyph +:+ after).
Proof.
  intros Hr Hin.
  destruct (representable_append _ _ Hr) as [Hpre Hrest].
  assert (Hpost : representable post).
  { apply (representable_append (String b "") post). exact Hrest. }
  exists (scan pre), (scan post).
  rewrite !getFarsi_scan by assumption.
  split; [reflexivity|]. split; [reflexivity|]. f_equal.
  cbn [In] in Hin.
  repeat (destruct Hin as [E|Hin];
          [injection E as <- <-;
           (rewrite scan_append by (intros suf'; discriminate));
           reflexivity|]).
  destruct Hin.
Qed.

Lemma getFarsi_letter_anywhere_witness :
  exists before after,
    getFarsi "sala" = Returned before
    /\ getFarsi "" = Returned after
    /\ getFarsi "salam" = Returned (before +:+ "م" +:+ after).
Proof.
  apply (getFarsi_letter_anywhere "sala" "" "m"%char "م").
  - vm_compute. discriminate.
  - cbn [In]. auto 20.
Defined.

(** ** Further properties of the handler *)

Lemma world_with_ok answer object post :
  World_ok (world_with answer object post).
Proof. intros m. reflexivity. Qed.

Lemma range_concat_from (acc : string) (order : list (string * string)) :
  foldl (fun farsi kv => farsi +:+ kv.2) acc order
  = acc +:+ range_concat order.
Proof.
  unfold range_concat. revert acc.
  induction order as [|kv order IH]; intros acc; cbn [foldl].
  - now rewrite append_empty_r.
  - rewrite (IH (acc +:+ kv.2)), (IH ("" +:+ kv.2)).
    change ("" +:+ kv.2) with kv.2. now rewrite append_assoc.
Qed.

Lemma range_concat_length (order : list (string * string)) :
  String.length (range_concat order) = values_length order.
Proof.
  induction order as [|kv order IH]; [reflexivity|].
  unfold range_concat. cbn [foldl values_length foldr].
  rewrite range_concat_from, length_append, IH.
  change ("" +:+ kv.2) with kv.2. reflexivity.
Qed.

Lemma values_length_Permutation (l1 l2 : list (string * string)) :
  l1 ≡ₚ l2 -> values_length l1 = values_length l2.
Proof.
  induction 1 as [|kv l1 l2 _ IH|kv1 kv2 l|l1 l2 l3 _ IH1 _ IH2];
    cbn [values_length foldr] in *; try lia.
  fold (values_length l1) (values_length l2) in *. lia.
Qed.

(** X11.  [parseIncomingRequest] returns an update exactly when the decoder
    produced it and its id is not 0; it then logs nothing. *)
Theorem parseIncomingRequest_returns_iff (w : World) (body : string)
        (u : update) (logged : list event) :
  parseIncomingRequest w body = (logged, inr u)
  <-> json_Decode_update w body = inr u /\ UpdateId u <> 0 /\ logged = [].
Proof.
  unfold parseIncomingRequest.
  destruct (json_Decode_update w body) as [err|u'].
  - split; [discriminate|]. intros [H _]. discriminate.
  - destruct (Z.eqb_spec (UpdateId u') 0) as [E|E].
    + split; [discriminate|]. intros (H & Hid & _). congruence.
    + split.
      * intros H. injection H as <- <-. auto.
      * intros (H & _ & ->). congruence.
Qed.

Lemma parseIncomingRequest_returns_iff_witness :
  parseIncomingRequest (sample_world order_forward) "payload:lower-case"
  = ([], inr {| UpdateId := 8; Message := sample_message "salam" |}).
Proof.
  apply (proj2 (parseIncomingRequest_returns_iff
                  (sample_world order_forward) "payload:lower-case"
                  {| UpdateId := 8; Message := sample_message "salam" |} [])).
  split; [reflexivity|]. split; [discriminate|reflexivity].
Defined.

(** X12.  A request that does not decode is dropped: the handler writes
    two log lines carrying the decoder's message and sends nothing. *)
Theorem Handler_decode_failure (w : World) (body : string) (err : error) :
  json_Decode_update w body = inl err ->
  Handler w body
  = [log_Printf "could not decode incoming update %s" [ArgS (Error err)];
     log_Printf "error parsing incoming update, %s" [ArgS (Error err)]]
  /\ converter_requests (Handler w body) = []
  /\ posted_forms (Handler w body) = [].
Proof.
  intros Hdec. unfold Handler, parseIncomingRequest. rewrite Hdec.
  repeat split; reflexivity.
Qed.

Lemma Handler_decode_failure_witness :
  Handler (sample_world order_forward) "{"
  = [log_Printf "could not decode incoming update %s"
                [ArgS "unexpected end of JSON input"];
     log_Printf "error parsing incoming update, %s"
                [ArgS "unexpected end of JSON input"]].
Proof.
  apply (Handler_decode_failure (sample_world order_forward) "{"
           (errors_New "unexpected end of JSON input")).
  reflexivity.
Defined.



(** X14.  When the transliteration fails, [sendToClient] posts nothing to
    the messaging platform: it returns the error with an empty body, having
    sent only the request to the service. *)
Theorem sendToClient_service_failure (w : World) (chatID : Z)
        (incomingText farsi : string) (sent : list event) (err : error) :
  incomingText <> "/start" ->
  getFarsiAPI w incomingText = (sent, (farsi, Some err)) ->
  sendToClient w chatID incomingText
  = ([http_Do "POST" converter_url incomingText], ("", Some err)).
Proof.
  intros Hne Hapi. unfold sendToClient.
  destruct (String.eqb_spec incomingText "/start") as [E|_]; [contradiction|].
  pose proof (getFarsiAPI_trace w incomingText) as Htr.
  rewrite Hapi in *. cbn [fst] in Htr. now subst sent.
Qed.

Lemma sendToClient_service_failure_witness :
  sendToClient
    (world_with (fun _ => inl (errors_New "connection refused"))
                (fun _ => inr [])
                (fun _ _ _ => inr (inr "ok")))
    42 "salam"
  = ([http_Do "POST" converter_url "salam"],
     ("", Some (errors_New "err sending request: connection refused"))).
Proof.
  apply (sendToClient_service_failure _ 42 "salam" ""
           [http_Do "POST" converter_url "salam"]);
    [discriminate|reflexivity].
Defined.

(** X15.  [sendToClient] never returns a body together with an error: when
    posting or reading the platform's answer fails, whatever was received
    is dropped. *)
Theorem sendToClient_error_empty_body (w : World) (chatID : Z)
        (incomingText body : string) (done : list event) (err : error) :
  sendToClient w chatID incomingText = (done, (body, Some err)) ->
  body = "".
Proof.
  unfold sendToClient.
  destruct (String.eqb incomingText "/start"); [discriminate|].
  destruct (getFarsiAPI w incomingText) as [called [text [e|]]].
  - intros H. now injection H as _ <- _.
  - destruct (post_form w (telegramAPI w) (strconv_Itoa chatID) text)
      as [e|[e|resp]]; intros H; try discriminate;
      now injection H as _ <- _.
Qed.

Lemma sendToClient_error_empty_body_witness :
  exists done body err,
    sendToClient
      (world_with (fun _ => inr (inr "response"))
                  (fun _ => inr [("salam", "سلام")])
                  (fun _ _ _ => inr (inl (errors_New "unexpected EOF"))))
      42 "salam"
    = (done, (body, Some err))
    /\ body = "".
Proof.
  set (run := sendToClient _ 42 "salam").
  exists run.1, run.2.1, (errors_New "unexpected EOF").
  assert (H : run = (run.1, (run.2.1, Some (errors_New "unexpected EOF"))))
    by reflexivity.
  split; [exact H|].
  exact (sendToClient_error_empty_body _ _ _ _ _ _ H).
Defined.

(** X16.  The check for "/start" is exact: for any other text, also one
    that differs in case only, [sendToClient] sends one request to the
    service, carrying the text as it was given. *)
Theorem sendToClient_other_text_is_sent (w : World) (chatID : Z)
        (incomingText : string) :
  incomingText <> "/start" ->
  converter_requests (sendToClient w chatID incomingText).1 = [incomingText].
Proof.
  intros Hne. rewrite sendToClient_requests.
  destruct (String.eqb_spec incomingText "/start"); [contradiction|reflexivity].
Qed.

Lemma sendToClient_other_text_is_sent_witness :
  converter_requests
    (sendToClient (sample_world order_forward) 42 "/Start").1 = ["/Start"].
Proof.
  apply (sendToClient_other_text_is_sent (sample_world order_forward) 42
           "/Start").
  discriminate.
Defined.

(** X17.  One run of the handler sends at most one request to the
    transliteration service and posts at most one form, and it posts a form
    only if it has sent a request. *)
Theorem Handler_at_most_one (w : World) (body : string) :
  (length (converter_requests (Handler w body)) <= 1)%nat
  /\ (length (posted_forms (Handler w body)) <= 1)%nat
  /\ (posted_forms (Handler w body) <> [] ->
      converter_requests (Handler w body) <> []).
Proof.
  unfold Handler, parseIncomingRequest.
  destruct (json_Decode_update w body) as [err|u];
    [cbn; repeat split; auto; congruence|].
  destruct (UpdateId u =? 0); [cbn; repeat split; auto; congruence|].
  unfold sendToClient.
  destruct (String.eqb (strings_ToLower w (Text (Message u))) "/start");
    [cbn; repeat split; auto; congruence|].
  pose proof (getFarsiAPI_trace w (strings_ToLower w (Text (Message u))))
    as Htr.
  destruct (getFarsiAPI w (strings_ToLower w (Text (Message u))))
    as [called [text [e|]]]; cbn [fst] in Htr; subst called;
    [cbn; repeat split; auto; congruence|].
  destruct (post_form w (telegramAPI w)
              (strconv_Itoa (ID (Chat (Message u)))) text)
    as [e|[e|resp]]; cbn; repeat split; auto; congruence.
Qed.

Lemma Handler_at_most_one_witness :
  posted_forms (Handler (sample_world order_forward) "payload:mixed-case")
  = [("42", "xy")]
  /\ converter_requests
       (Handler (sample_world order_forward) "payload:mixed-case") <> [].
Proof.
  split; [reflexivity|].
  apply (proj2 (proj2 (Handler_at_most_one (sample_world order_forward)
                         "payload:mixed-case"))).
  discriminate.
Defined.

(** X18.  For an answer that is an object with one member, every run
    returns the value of that member, whatever the key. *)
Theorem getFarsiAPI_single_member (w : World)
        (resp_body key value : string) :
  World_ok w ->
  json_object w resp_body = inr [(key, value)] ->
  getFarsiAPI_result w resp_body = (value, None).
Proof. apply getFarsiAPI_result_single. Qed.

Lemma getFarsiAPI_single_member_witness :
  getFarsiAPI_result
    (world_with (fun _ => inr (inr "response"))
                (fun _ => inr [("salam", "سلام")])
                (fun _ _ _ => inr (inr "ok")))
    "response"
  = ("سلام", None).
Proof.
  apply (getFarsiAPI_single_member _ "response" "salam" "سلام").
  - apply world_with_ok.
  - reflexivity.
Defined.

(** X19.  For an answer that is an object without members, every run
    returns the empty text and no error. *)
Theorem getFarsiAPI_empty_object (w : World) (resp_body : string) :
  World_ok w ->
  json_object w resp_body = inr [] ->
  getFarsiAPI_result w resp_body = ("", None).
Proof.
  intros Hok Hobj. rewrite (getFarsiAPI_result_decoded w _ _ Hobj).
  pose proof (Hok (map_of_members [])) as Hperm.
  cbn [map_of_members foldl] in *. rewrite map_to_list_empty in Hperm.
  apply Permutation_nil_r in Hperm. now rewrite Hperm.
Qed.

Lemma getFarsiAPI_empty_object_witness :
  getFarsiAPI_result
    (world_with (fun _ => inr (inr "{}")) (fun _ => inr [])
                (fun _ _ _ => inr (inr "ok")))
    "{}"
  = ("", None).
Proof.
  apply (getFarsiAPI_empty_object _ "{}"); [apply world_with_ok|reflexivity].
Defined.

(** X20.  The order of enumeration changes the text but not its length:
    two runs on answers that decode to the same object return texts of the
    same number of bytes, the bytes of the values of the decoded map. *)
Theorem getFarsiAPI_result_same_length (w1 w2 : World)
        (body1 body2 : string) (members : list (string * string)) :
  World_ok w1 -> World_ok w2 ->
  json_object w1 body1 = inr members ->
  json_object w2 body2 = inr members ->
  String.length (getFarsiAPI_result w1 body1).1
  = values_length (map_to_list (map_of_members members))
  /\ String.length (getFarsiAPI_result w1 body1).1
     = String.length (getFarsiAPI_result w2 body2).1.
Proof.
  intros Hok1 Hok2 Hobj1 Hobj2.
  rewrite (getFarsiAPI_result_decoded w1 _ _ Hobj1).
  rewrite (getFarsiAPI_result_decoded w2 _ _ Hobj2).
  cbn [fst]. rewrite !range_concat_length.
  rewrite (values_length_Permutation _ _ (Hok1 (map_of_members members))).
  rewrite (values_length_Permutation _ _ (Hok2 (map_of_members members))).
  split; reflexivity.
Qed.

Lemma getFarsiAPI_result_same_length_witness :
  String.length
    (getFarsiAPI_result (sample_world order_forward) "response").1
  = String.length
      (getFarsiAPI_result (sample_world order_backward) "response").1.
Proof.
  apply (getFarsiAPI_result_same_length
           (sample_world order_forward) (sample_world order_backward)
           "response" "response" [("a", "x"); ("b", "y")]);
    [exact sample_world_ok_forward|exact sample_world_ok_backward
    |reflexivity|reflexivity].
Defined.

(** X21.  From the request to the reply: a valid update whose lowercased
    text is not "/start", answered by the service with an object of one
    member, and accepted by the platform, makes the handler send the
    lowercased text to the service and post one form, with the chat id in
    decimal and the value of that member as text. *)
Theorem Handler_replies (w : World) (body resp_body key value answer : string)
        (u : update) :
  World_ok w ->
  json_Decode_update w body = inr u -> UpdateId u <> 0 ->
  strings_ToLower w (Text (Message u)) <> "/start" ->
  client_Do w (strings_ToLower w (Text (Message u))) = inr (inr resp_body) ->
  json_object w resp_body = inr [(key, value)] ->
  post_form w (telegramAPI w) (strconv_Itoa (ID (Chat (Message u)))) value
  = inr (inr answer) ->
  converter_requests (Handler w body) = [strings_ToLower w (Text (Message u))]
  /\ posted_forms (Handler w body)
     = [(strconv_Itoa (ID (Chat (Message u))), value)].
Proof.
  intros Hok Hdec Hid Hne Hdo Hobj Hpost.
  rewrite (Handler_valid_update w body u Hdec Hid).
  unfold sendToClient.
  destruct (String.eqb_spec (strings_ToLower w (Text (Message u))) "/start")
    as [E|_]; [contradiction|].
  unfold getFarsiAPI. rewrite Hdo.
  rewrite (getFarsiAPI_result_single w resp_body key value Hok Hobj).
  rewrite Hpost. split; reflexivity.
Qed.

Lemma Handler_replies_witness :
  converter_requests
    (Handler (world_with (fun _ => inr (inr "response"))
                         (fun _ => inr [("salam", "سلام")])
                         (fun _ _ _ => inr (inr "ok")))
             "payload:mixed-case")
  = ["salam"]
  /\ posted_forms
       (Handler (world_with (fun _ => inr (inr "response"))
                            (fun _ => inr [("salam", "سلام")])
                            (fun _ _ _ => inr (inr "ok")))
                "payload:mixed-case")
     = [("42", "سلام")].
Proof.
  apply (Handler_replies
           (world_with (fun _ => inr (inr "response"))
                       (fun _ => inr [("salam", "سلام")])
                       (fun _ _ _ => inr (inr "ok")))
           "payload:mixed-case" "response" "salam" "سلام" "ok"
           {| UpdateId := 8; Message := sample_message "SaLam" |});
    try reflexivity; try discriminate.
  apply world_with_ok.
Defined.

(** ** The decimal form of an [int], and the printers *)

Lemma to_int_proper (n : Z) :
  Z.to_int n <> Decimal.Pos Decimal.Nil
  /\ Z.to_int n <> Decimal.Neg Decimal.Nil.
Proof.
  destruct n as [|p|p]; cbn; split; try discriminate;
    intros H; injection H as H; now apply (Unsigned.to_uint_nonnil p).
Qed.

Lemma strconv_Itoa_inj (a b : Z) : strconv_Itoa a = strconv_Itoa b -> a = b.
Proof.
  unfold strconv_Itoa. intros H. apply DecimalZ.to_int_inj.
  destruct (to_int_proper a) as [Ha1 Ha2], (to_int_proper b) as [Hb1 Hb2].
  pose proof (NilZero.isi _ Ha1 Ha2) as Ia.
  pose proof (NilZero.isi _ Hb1 Hb2) as Ib.
  rewrite H in Ia. congruence.
Qed.

Lemma string_of_uint_no_comma (d : Decimal.uint) :
  no_comma (NilEmpty.string_of_uint d) = true.
Proof. induction d; cbn; auto. Qed.

Lemma strconv_Itoa_no_comma (n : Z) : no_comma (strconv_Itoa n) = true.
Proof.
  unfold strconv_Itoa.
  destruct (Z.to_int n) as [d|d]; cbn [NilZero.string_of_int].
  - destruct d; try apply string_of_uint_no_comma; reflexivity.
  - change (no_comma (NilZero.string_of_uint d) = true).
    destruct d; try apply string_of_uint_no_comma; reflexivity.
Qed.

Lemma append_cancel_l (p a b : string) : p +:+ a = p +:+ b -> a = b.
Proof.
  induction p as [|c p IH]; [auto|].
  change (String c (p +:+ a) = String c (p +:+ b) -> a = b).
  intros H. injection H as H. auto.
Qed.

(** Two texts without a comma, each followed by a comma: equal wholes have
    equal beginnings. *)
Lemma before_comma (x y r r' : string) :
  no_comma x = true -> no_comma y = true ->
  x +:+ String ","%char r = y +:+ String ","%char r' -> x = y.
Proof.
  revert y. induction x as [|c x IH]; intros [|c' y] Hx Hy H;
    try reflexivity.
  - injection H as <- _. discriminate Hy.
  - injection H as -> _. discriminate Hx.
  - change (String c (x +:+ String ","%char r)
            = String c' (y +:+ String ","%char r')) in H.
    injection H as -> H.
    unfold no_comma in *. cbn [all_bytes] in Hx, Hy.
    apply andb_prop in Hx as [_ Hx]. apply andb_prop in Hy as [_ Hy].
    f_equal. now apply IH.
Qed.

Lemma before_paren (x y : string) :
  String.length x = String.length y -> x +:+ ")" = y +:+ ")" -> x = y.
Proof.
  revert y. induction x as [|c x IH]; intros [|c' y] Hlen H;
    try reflexivity; try discriminate Hlen.
  change (String c (x +:+ ")") = String c' (y +:+ ")")) in H.
  injection H as -> H. cbn [String.length] in Hlen. f_equal.
  apply IH; [lia|exact H].
Qed.

(** X22.  The printed form of a chat tells chats apart: two chats that
    print alike have the same id. *)
Theorem chat_String_inj (c1 c2 : chat) :
  chat_String c1 = chat_String c2 -> ID c1 = ID c2.
Proof.
  unfold chat_String. intros H%append_cancel_l.
  apply strconv_Itoa_inj. apply before_paren; [|exact H].
  apply (f_equal String.length) in H. rewrite !length_append in H.
  cbn [String.length] in H. lia.
Qed.

Lemma chat_String_inj_witness :
  chat_String {| ID := -7 |} = "(id: -7)"
  /\ ID {| ID := -7 |} = ID {| ID := -7 |}.
Proof.
  split; [reflexivity|].
  apply (chat_String_inj {| ID := -7 |} {| ID := -7 |}). reflexivity.
Defined.

(** X23.  The printed form of an update shows its id: two updates that
    print alike have the same id, whatever their messages. *)
Theorem update_String_shows_id (u1 u2 : update) :
  update_String u1 = update_String u2 -> UpdateId u1 = UpdateId u2.
Proof.
  unfold update_String. intros H%append_cancel_l.
  apply strconv_Itoa_inj.
  apply (before_comma _ _
           (" message: " +:+ message_String (Message u1) +:+ ")")
           (" message: " +:+ message_String (Message u2) +:+ ")"));
    [apply strconv_Itoa_no_comma|apply strconv_Itoa_no_comma|exact H].
Qed.

Lemma update_String_shows_id_witness :
  update_String {| UpdateId := 8; Message := sample_message "SaLam" |}
  = "(update id: 8, message: (text: SaLam, chat: (id: 42), audio (file id: , duration: 0)))"
  /\ UpdateId {| UpdateId := 8; Message := sample_message "SaLam" |} = 8.
Proof.
  split; [reflexivity|].
  apply (update_String_shows_id
           {| UpdateId := 8; Message := sample_message "SaLam" |}
           {| UpdateId := 8; Message := sample_message "SaLam" |}).
  reflexivity.
Defined.

(** What [sendToClient] posts: nothing, or one form with the chat id in
    decimal. *)
Lemma sendToClient_forms (w : World) (chatID : Z) (incomingText : string) :
  posted_forms (sendToClient w chatID incomingText).1 = []
  \/ exists text,
       posted_forms (sendToClient w chatID incomingText).1
       = [(strconv_Itoa chatID, text)].
Proof.
  unfold sendToClient.
  destruct (String.eqb incomingText "/start"); [now left|].
  pose proof (getFarsiAPI_trace w incomingText) as Htr.
  destruct (getFarsiAPI w incomingText) as [called [text [e|]]];
    cbn [fst] in Htr; subst called; [now left|].
  right. exists text.
  destruct (post_form w (telegramAPI w) (strconv_Itoa chatID) text)
    as [e|[e|resp]]; reflexivity.
Qed.

(** X24.  The form that is posted names the chat: two runs of
    [sendToClient] that post forms with the same [chat_id] field were given
    the same chat id. *)
Theorem sendToClient_form_names_chat (w1 w2 : World) (chat1 chat2 : Z)
        (text1 text2 chat_id posted1 posted2 : string) :
  posted_forms (sendToClient w1 chat1 text1).1 = [(chat_id, posted1)] ->
  posted_forms (sendToClient w2 chat2 text2).1 = [(chat_id, posted2)] ->
  chat1 = chat2.
Proof.
  intros H1 H2. apply strconv_Itoa_inj.
  destruct (sendToClient_forms w1 chat1 text1) as [E1|[t1 E1]];
    rewrite E1 in H1; [discriminate|].
  destruct (sendToClient_forms w2 chat2 text2) as [E2|[t2 E2]];
    rewrite E2 in H2; [discriminate|].
  congruence.
Qed.

Lemma sendToClient_form_names_chat_witness :
  posted_forms (sendToClient (sample_world order_forward) 42 "salam").1
  = [("42", "xy")]
  /\ posted_forms (sendToClient (sample_world order_backward) 42 "dorud").1
     = [("42", "yx")]
  /\ 42 = 42.
Proof.
  assert (H1 : posted_forms
                 (sendToClient (sample_world order_forward) 42 "salam").1
               = [("42", "xy")]) by reflexivity.
  assert (H2 : posted_forms
                 (sendToClient (sample_world order_backward) 42 "dorud").1
               = [("42", "yx")]) by reflexivity.
  split; [exact H1|]. split; [exact H2|].
  exact (sendToClient_form_names_chat _ _ _ _ _ _ _ _ _ H1 H2).
Defined.
